(** * The self-learning search engine of the rental service

    A shallow embedding of [SelfLearningAIEngine]
    (client/src/components: the class that scores listings against a
    free-text query and adapts its weights from clicks and ratings),
    together with the properties its specification states.

    Modelling conventions.
    - A JavaScript string is the list of its UTF-16 code units.
    - JavaScript numbers are modelled exactly: counts, lengths, weights,
      ratings, areas and prices are integers ([nat] or [Z]; the server
      stores [parseInt] of area and price, the rating buttons send
      1..5), scores are rationals ([Q]).  Rounding of IEEE doubles, NaN
      and the infinities are outside the model.
    - A [Map] is a [gmap]; an array that is shared between two owners
      lives in an explicit store of arrays and is named by its
      reference. *)

From Stdlib Require Import ZArith QArith Qminmax Lia Lqa List Sorted
  Permutation String Ascii.
From stdpp Require Import base list gmap.

Local Open Scope nat_scope.

(** ** Strings *)

Module JsString.

Abbreviation jsstring := (list N).

(** Literals are written as Rocq strings; the bytes of the UTF-8 source
    text are decoded to code points and then to UTF-16 code units. *)
Fixpoint utf16_of_bytes (bs : list N) : list N :=
  match bs with
  | [] => []
  | b0 :: r0 =>
    if (b0 <? 128)%N then b0 :: utf16_of_bytes r0
    else match r0 with
    | [] => []
    | b1 :: r1 =>
      if (b0 <? 224)%N
      then ((b0 - 192) * 64 + (b1 - 128))%N :: utf16_of_bytes r1
      else match r1 with
      | [] => []
      | b2 :: r2 =>
        if (b0 <? 240)%N
        then ((b0 - 224) * 4096 + (b1 - 128) * 64 + (b2 - 128))%N
               :: utf16_of_bytes r2
        else match r2 with
        | [] => []
        | b3 :: r3 =>
          let cp := ((b0 - 240) * 262144 + (b1 - 128) * 4096
                     + (b2 - 128) * 64 + (b3 - 128))%N in
          let v := (cp - 65536)%N in
          (55296 + v / 1024)%N :: (56320 + v mod 1024)%N
            :: utf16_of_bytes r3
        end
      end
    end
  end.

Definition utf16 (s : string) : list N :=
  utf16_of_bytes (map (fun a => N_of_ascii a) (list_ascii_of_string s)).

(** [String.prototype.toLowerCase], unit by unit: the simple case
    mappings of Basic Latin, Latin-1 and the Cyrillic block (the
    alphabets of the listings); every other unit is left as it is. *)
Definition lower_unit (c : N) : N :=
  if ((65 <=? c) && (c <=? 90))%N then (c + 32)%N
  else if ((192 <=? c) && (c <=? 222) && negb (c =? 215))%N then (c + 32)%N
  else if ((1024 <=? c) && (c <=? 1039))%N then (c + 80)%N
  else if ((1040 <=? c) && (c <=? 1071))%N then (c + 32)%N
  else c.

Definition toLowerCase (s : list N) : list N := map lower_unit s.

(** White space and line terminators: what [trim] strips and what the
    regular expression class [\s] matches. *)
Definition is_space (c : N) : bool :=
  ((9 <=? c) && (c <=? 13) || (c =? 32) || (c =? 160) || (c =? 5760)
   || (8192 <=? c) && (c <=? 8202) || (c =? 8232) || (c =? 8233)
   || (c =? 8239) || (c =? 8287) || (c =? 12288) || (c =? 65279))%N.

Fixpoint trimStart (s : list N) : list N :=
  match s with
  | c :: s' => if is_space c then trimStart s' else s
  | [] => []
  end.

Definition trimEnd (s : list N) : list N := rev (trimStart (rev s)).

Definition trim (s : list N) : list N := trimEnd (trimStart s).

Fixpoint startsWith (s sub : list N) : bool :=
  match sub, s with
  | [], _ => true
  | _ :: _, [] => false
  | d :: sub', c :: s' => (c =? d)%N && startsWith s' sub'
  end.

(** [s.includes(sub)] *)
Fixpoint includes (s sub : list N) : bool :=
  startsWith s sub ||
  match s with
  | [] => false
  | _ :: s' => includes s' sub
  end.

(** [s.split(/\s+/)]: the pieces between maximal runs of white space;
    a run at either end leaves an empty piece there, and the empty
    string splits into one empty piece. *)
Fixpoint split_from (cur : list N) (in_run : bool) (s : list N)
  : list (list N) :=
  match s with
  | [] => [rev cur]
  | c :: s' =>
    if is_space c
    then if in_run then split_from [] true s'
         else rev cur :: split_from [] true s'
    else split_from (c :: cur) false s'
  end.

Definition split_spaces (s : list N) : list (list N) :=
  split_from [] false s.

Definition is_digit (c : N) : bool := ((48 <=? c) && (c <=? 57))%N.

(** [s.match(/\d+/g)]: the maximal runs of decimal digits, left to
    right; JavaScript answers [null] where this list is empty. *)
Fixpoint digits_from (cur : list N) (s : list N) : list (list N) :=
  match s with
  | [] => match cur with [] => [] | _ => [rev cur] end
  | c :: s' =>
    if is_digit c then digits_from (c :: cur) s'
    else match cur with
         | [] => digits_from [] s'
         | _ => rev cur :: digits_from [] s'
         end
  end.

Definition match_digits (s : list N) : list (list N) := digits_from [] s.

(** [parseInt] of a run of decimal digits. *)
Definition parseInt (s : list N) : Z :=
  fold_left (fun acc c => (acc * 10 + (Z.of_N c - 48))%Z) s 0%Z.

(** [s.charAt(i)]: the unit at [i], the empty string out of range. *)
Definition charAt (s : list N) (i : nat) : option N := s !! i.

End JsString.

Import JsString.

(** ** String similarity *)

(** Assignment [a[i] = v] to a JavaScript array: inside the array it
    overwrites, at its end it appends, and further out it leaves holes
    (filled with [d] here; the matrix below is never read at a hole). *)
Definition array_set {A} (d : A) (a : list A) (i : nat) (v : A) : list A :=
  if decide (i < length a) then <[i:=v]> a
  else a ++ replicate (i - length a) d ++ [v].

Definition matrix_get (m : list (list nat)) (i j : nat) : nat :=
  (m !!! i) !!! j.

Definition matrix_set (m : list (list nat)) (i j v : nat) : list (list nat) :=
  array_set [] m i (array_set 0 (m !!! i) j v).

Definition min3 (a b c : nat) : nat := Nat.min (Nat.min a b) c.

(** The body of the two nested loops of [levenshteinDistance]. *)
Definition levenshtein_cell (str1 str2 : list N) (i : nat)
    (matrix : list (list nat)) (j : nat) : list (list nat) :=
  if decide (charAt str2 (i - 1) = charAt str1 (j - 1))
  then matrix_set matrix i j (matrix_get matrix (i - 1) (j - 1))
  else matrix_set matrix i j
         (min3 (matrix_get matrix (i - 1) (j - 1) + 1)
               (matrix_get matrix i (j - 1) + 1)
               (matrix_get matrix (i - 1) j + 1)).

Definition levenshtein_matrix (str1 str2 : list N) : list (list nat) :=
  let matrix := [] in
  let matrix :=
    foldl (fun m i => array_set [] m i [i]) matrix
          (seq 0 (S (length str2))) in
  let matrix :=
    foldl (fun m j => matrix_set m 0 j j) matrix
          (seq 0 (S (length str1))) in
  foldl (fun m i => foldl (levenshtein_cell str1 str2 i) m
                          (seq 1 (length str1)))
        matrix (seq 1 (length str2)).

Definition levenshteinDistance (str1 str2 : list N) : nat :=
  matrix_get (levenshtein_matrix str1 str2) (length str2) (length str1).

Definition calculateStringSimilarity (str1 str2 : list N) : Q :=
  let longer := if decide (length str2 < length str1) then str1 else str2 in
  let shorter := if decide (length str2 < length str1) then str2 else str1 in
  if decide (length longer = 0) then 1%Q
  else
    let distance := levenshteinDistance longer shorter in
    (inject_Z (Z.of_nat (length longer) - Z.of_nat distance)
     / inject_Z (Z.of_nat (length longer)))%Q.

(** The specification's words for the distance: the classic edit
    distance, where inserting, deleting and substituting one unit cost 1
    each.  [edit s t n] says that some edit script of cost [n] turns [s]
    into [t]; [edit_distance] is the textbook recurrence. *)
Inductive edit : list N -> list N -> nat -> Prop :=
| edit_nil : edit [] [] 0
| edit_keep c s t n : edit s t n -> edit (c :: s) (c :: t) n
| edit_substitute c d s t n : edit s t n -> edit (c :: s) (d :: t) (S n)
| edit_delete c s t n : edit s t n -> edit (c :: s) t (S n)
| edit_insert d s t n : edit s t n -> edit s (d :: t) (S n).

Fixpoint edit_distance (s t : list N) : nat :=
  match s with
  | [] => length t
  | c :: s' =>
    (fix against (t : list N) : nat :=
       match t with
       | [] => S (length s')
       | d :: t' =>
         min3 (edit_distance s' t' + (if decide (c = d) then 0 else 1))
              (S (edit_distance s' t))
              (S (against t'))
       end) t
  end.

(** [n] is the least cost of an edit script from [s] to [t]. *)
Definition least_edit_cost (s t : list N) (n : nat) : Prop :=
  edit s t n /\ forall m, edit s t m -> n <= m.

(** ** Data model *)

(** types.ts *)
Record Listing := {
  id : list N;
  title : list N;
  description : list N;
  area : Z;
  price : Z;
  location : list N;
  type : list N;
  floor : Z;
  totalFloors : Z;
  hasParking : bool;
  hasStorage : bool;
  contactName : list N;
  contactPhone : list N;
  contactEmail : list N;
  images : list (list N);
  createdAt : list N;
  isActive : bool;
  coordinates : option (Q * Q)
}.

Record SearchResult := {
  listing : Listing;
  score : Q;
  matchedFeatures : list (list N)
}.

(** [clickedListings] is an array.  In the engine's memory it is held by
    reference ([A] is [ref]), because [analyzeSuccessfulQuery] stores the
    very same array in [contextualMappings] and [recordClick] pushes to
    it; in a caller's argument and in the saved JSON it is a plain list
    of ids. *)
Record UserInteraction (A : Type) := {
  query : list N;
  timestamp : Z;
  resultsCount : Z;
  clickedListings : A;
  feedbackRating : option Z;
  sessionId : list N
}.
Arguments query {A} _.
Arguments timestamp {A} _.
Arguments resultsCount {A} _.
Arguments clickedListings {A} _.
Arguments feedbackRating {A} _.
Arguments sessionId {A} _.

Definition ref := nat.

Definition with_clicked {A B} (i : UserInteraction A) (c : B)
  : UserInteraction B :=
  {| query := query i; timestamp := timestamp i;
     resultsCount := resultsCount i; clickedListings := c;
     feedbackRating := feedbackRating i; sessionId := sessionId i |}.

Record LearningData := {
  queryPatterns : gmap (list N) Z;
  successfulQueries : list (UserInteraction ref);
  featureWeights : gmap (list N) Z;
  userPreferences : gmap (list N) Q;
  contextualMappings : gmap (list N) ref
}.

(** The object [toSave] that [saveLearningData] serialises under the key
    [ai_learning_data], and that [JSON.parse] gives back. *)
Record SavedData := {
  saved_queryPatterns : list (list N * Z);
  saved_successfulQueries : list (UserInteraction (list (list N)));
  saved_featureWeights : list (list N * Z);
  saved_userPreferences : list (list N * Q);
  saved_contextualMappings : list (list N * list (list N))
}.

(** The engine: its three private fields, the store of the
    [clickedListings] arrays they refer to, and the item of
    [localStorage] it owns ([None]: no item, or one that does not
    parse). *)
Record Engine := {
  learningData : LearningData;
  currentSessionId : list N;
  currentQuery : list N;
  arrays : list (list (list N));
  localStorage : option SavedData
}.

Definition set_learningData (d : LearningData) (e : Engine) : Engine :=
  {| learningData := d; currentSessionId := currentSessionId e;
     currentQuery := currentQuery e; arrays := arrays e;
     localStorage := localStorage e |}.

Definition set_currentQuery (q : list N) (e : Engine) : Engine :=
  {| learningData := learningData e; currentSessionId := currentSessionId e;
     currentQuery := q; arrays := arrays e;
     localStorage := localStorage e |}.

Definition set_arrays (h : list (list (list N))) (e : Engine) : Engine :=
  {| learningData := learningData e; currentSessionId := currentSessionId e;
     currentQuery := currentQuery e; arrays := h;
     localStorage := localStorage e |}.

Definition set_localStorage (s : option SavedData) (e : Engine) : Engine :=
  {| learningData := learningData e; currentSessionId := currentSessionId e;
     currentQuery := currentQuery e; arrays := arrays e;
     localStorage := s |}.

Definition set_queryPatterns (m : gmap (list N) Z) (d : LearningData)
  : LearningData :=
  {| queryPatterns := m; successfulQueries := successfulQueries d;
     featureWeights := featureWeights d;
     userPreferences := userPreferences d;
     contextualMappings := contextualMappings d |}.

Definition set_successfulQueries (l : list (UserInteraction ref))
    (d : LearningData) : LearningData :=
  {| queryPatterns := queryPatterns d; successfulQueries := l;
     featureWeights := featureWeights d;
     userPreferences := userPreferences d;
     contextualMappings := contextualMappings d |}.

Definition set_featureWeights (m : gmap (list N) Z) (d : LearningData)
  : LearningData :=
  {| queryPatterns := queryPatterns d;
     successfulQueries := successfulQueries d; featureWeights := m;
     userPreferences := userPreferences d;
     contextualMappings := contextualMappings d |}.

Definition set_contextualMappings (m : gmap (list N) ref)
    (d : LearningData) : LearningData :=
  {| queryPatterns := queryPatterns d;
     successfulQueries := successfulQueries d;
     featureWeights := featureWeights d;
     userPreferences := userPreferences d; contextualMappings := m |}.

(** The array behind a reference. *)
Definition deref (e : Engine) (r : ref) : list (list N) :=
  default [] (arrays e !! r).

(** A new array: its reference is the next free slot of the store. *)
Definition new_array (a : list (list N)) (e : Engine) : ref * Engine :=
  (length (arrays e), set_arrays (arrays e ++ [a]) e).

(** [a.push(x)] on the array behind [r]. *)
Definition array_push (r : ref) (x : list N) (e : Engine) : Engine :=
  set_arrays (<[r := deref e r ++ [x]]> (arrays e)) e.

(** [new Map(entries)]: a later entry overwrites an earlier one with the
    same key. *)
Definition Map_of_entries {V} (entries : list (list N * V))
  : gmap (list N) V :=
  foldl (fun m kv => <[kv.1 := kv.2]> m) ∅ entries.

(** ** Persistence *)

Definition default_featureWeights : list (list N * Z) :=
  [ (utf16 "exact_match", 100%Z);
    (utf16 "type_match", 50%Z);
    (utf16 "size_match", 30%Z);
    (utf16 "price_match", 30%Z);
    (utf16 "feature_match", 25%Z);
    (utf16 "location_match", 20%Z);
    (utf16 "number_match", 40%Z);
    (utf16 "word_match", 20%Z) ].

(** Parsing gives every array of the saved object a place of its own in
    the store. *)
Definition load_interactions
    (saved : list (UserInteraction (list (list N))))
    (store : list (list (list N)))
  : list (UserInteraction ref) * list (list (list N)) :=
  foldl (fun acc i =>
           (acc.1 ++ [with_clicked i (length acc.2)],
            acc.2 ++ [clickedListings i]))
        ([], store) saved.

Definition load_mappings (saved : list (list N * list (list N)))
    (store : list (list (list N)))
  : gmap (list N) ref * list (list (list N)) :=
  foldl (fun acc kv =>
           (<[kv.1 := length acc.2]> acc.1, acc.2 ++ [kv.2]))
        (∅, store) saved.

Definition loadLearningData (saved : option SavedData)
  : LearningData * list (list (list N)) :=
  match saved with
  | Some parsed =>
    let '(log, store) :=
      load_interactions (saved_successfulQueries parsed) [] in
    let '(mappings, store) :=
      load_mappings (saved_contextualMappings parsed) store in
    ({| queryPatterns := Map_of_entries (saved_queryPatterns parsed);
        successfulQueries := log;
        featureWeights := Map_of_entries (saved_featureWeights parsed);
        userPreferences := Map_of_entries (saved_userPreferences parsed);
        contextualMappings := mappings |}, store)
  | None =>
    ({| queryPatterns := ∅;
        successfulQueries := [];
        featureWeights := Map_of_entries default_featureWeights;
        userPreferences := ∅;
        contextualMappings := ∅ |}, [])
  end.

(** The constructor.  The session id is [generateSessionId()], built
    from the clock and a random number: an input here. *)
Definition new_engine (session : list N) (storage : option SavedData)
  : Engine :=
  let '(data, store) := loadLearningData storage in
  {| learningData := data; currentSessionId := session;
     currentQuery := []; arrays := store; localStorage := storage |}.

(** [a.slice(-n)]: the last [n] elements. *)
Definition slice_last {A} (n : nat) (a : list A) : list A :=
  drop (length a - n) a.

Definition toSave (e : Engine) : SavedData :=
  let d := learningData e in
  {| saved_queryPatterns := map_to_list (queryPatterns d);
     saved_successfulQueries :=
       map (fun i => with_clicked i (deref e (clickedListings i)))
           (slice_last 1000 (successfulQueries d));
     saved_featureWeights := map_to_list (featureWeights d);
     saved_userPreferences := map_to_list (userPreferences d);
     saved_contextualMappings :=
       map (fun kv => (kv.1, deref e kv.2))
           (map_to_list (contextualMappings d)) |}.

(** [stored] tells whether [localStorage.setItem] went through; when it
    throws (quota), the method logs a warning and the item keeps its old
    value. *)
Definition saveLearningData (stored : bool) (e : Engine) : Engine :=
  if stored then set_localStorage (Some (toSave e)) e else e.

(** ** Learning from interactions *)

Definition analyzeSuccessfulQuery (interaction : UserInteraction ref)
    (e : Engine) : Engine :=
  let query := toLowerCase (query interaction) in
  let words :=
    List.filter (fun word => 2 <? length word) (split_spaces query) in
  let d := learningData e in
  let patterns :=
    foldl (fun m word =>
             let current :=
               match m !! word with Some n => n | None => 0%Z end in
             <[word := (current + 1)%Z]> m)
          (queryPatterns d) words in
  let d := set_queryPatterns patterns d in
  let d :=
    if decide (0 < length (deref e (clickedListings interaction)))
    then set_contextualMappings
           (<[query := clickedListings interaction]> (contextualMappings d)) d
    else d in
  set_learningData d e.

(** [Math.max(5, Math.min(150, weight + adjustment))] *)
Definition adjusted_weight (adjustment weight : Z) : Z :=
  Z.max 5 (Z.min 150 (weight + adjustment)).

(** [forEach] visits every entry of [featureWeights] once and sets its
    key to the new weight.  The caller has checked that the rating is
    there. *)
Definition updateWeightsBasedOnFeedback {A} (interaction : UserInteraction A)
    (e : Engine) : Engine :=
  match feedbackRating interaction with
  | Some rating =>
    let adjustment := ((rating - 3) * 5)%Z in
    let d := learningData e in
    set_learningData
      (set_featureWeights (adjusted_weight adjustment <$> featureWeights d) d)
      e
  | None => e
  end.

(** The caller hands over an interaction built for this call; its
    [clickedListings] array enters the store as a new array. *)
Definition recordInteraction
    (interaction : UserInteraction (list (list N))) (stored : bool)
    (e : Engine) : Engine :=
  let '(r, e) := new_array (clickedListings interaction) e in
  let interaction := with_clicked interaction r in
  let d := learningData e in
  let e :=
    set_learningData
      (set_successfulQueries (successfulQueries d ++ [interaction]) d) e in
  let e :=
    if decide (0 < length (deref e (clickedListings interaction)))
    then analyzeSuccessfulQuery interaction e else e in
  let e :=
    if decide (feedbackRating interaction <> None)
    then updateWeightsBasedOnFeedback interaction e else e in
  saveLearningData stored e.

(** ** Scoring *)

(** A method either returns or throws a [TypeError]. *)
Inductive result (A : Type) : Type :=
| Ok (a : A)
| TypeError.
Arguments Ok {A} a.
Arguments TypeError {A}.

Definition result_bind {A B} (r : result A) (f : A -> result B) : result B :=
  match r with
  | Ok a => f a
  | TypeError => TypeError
  end.

Fixpoint result_map {A B} (f : A -> result B) (l : list A)
  : result (list B) :=
  match l with
  | [] => Ok []
  | x :: l' =>
    result_bind (f x) (fun y =>
    result_bind (result_map f l') (fun ys => Ok (y :: ys)))
  end.

Definition Q_gtb (a b : Q) : bool := negb (Qle_bool a b).

(** [weights.get(feature) || fallback] *)
Definition weight_or (e : Engine) (feature : string) (fallback : Z) : Z :=
  match featureWeights (learningData e) !! utf16 feature with
  | Some w => if decide (w = 0%Z) then fallback else w
  | None => fallback
  end.

(** [userPreferences.get(key) || fallback] *)
Definition preference_or (e : Engine) (key : list N) (fallback : Q) : Q :=
  match userPreferences (learningData e) !! key with
  | Some v => if Qeq_bool v 0 then fallback else v
  | None => fallback
  end.

(** [baseKeywords[typeLower] || []].  [baseKeywords] is an object
    literal, so besides its four own keys the lookup finds the members
    it inherits from [Object.prototype]; of their names only
    [constructor] and [__proto__] are in lower case.  Neither value is
    an array: [push] and [some] on it throw. *)
Definition baseKeywords (typeLower : list N) : result (list (list N)) :=
  if decide (typeLower = utf16 "магазин") then
    Ok (map utf16 ["магазин"; "торговля"; "продажа"; "ритейл"; "розница"]%string)
  else if decide (typeLower = utf16 "ресторан") then
    Ok (map utf16 ["ресторан"; "кафе"; "бар"; "общепит"; "еда"; "питание"]%string)
  else if decide (typeLower = utf16 "офис") then
    Ok (map utf16 ["офис"; "работа"; "бизнес"; "деловой"; "it"]%string)
  else if decide (typeLower = utf16 "склад") then
    Ok (map utf16 ["склад"; "хранение"; "логистика"; "товары"]%string)
  else if decide (typeLower = utf16 "constructor"
                  \/ typeLower = utf16 "__proto__") then TypeError
  else Ok [].

Definition getLearnedTypeKeywords (type : list N) (e : Engine)
  : result (list (list N)) :=
  let typeLower := toLowerCase type in
  result_bind (baseKeywords typeLower) (fun keywords =>
  let learned :=
    List.filter
      (fun entry => (5 <? entry.2)%Z && includes entry.1 (take 4 typeLower))
      (map_to_list (queryPatterns (learningData e))) in
  Ok (keywords ++ map fst learned)).

Definition getLearnedSizePreferences : list (list N * (Z * Z)) :=
  [ (utf16 "маленький", (0, 50)%Z);
    (utf16 "небольшой", (50, 100)%Z);
    (utf16 "средний", (100, 200)%Z);
    (utf16 "большой", (200, 500)%Z) ].

(** The loop over the numbers of the query. *)
Fixpoint size_of_numbers (numbers : list (list N)) (area : Z) : option Z :=
  match numbers with
  | [] => None
  | numStr :: rest =>
    let num := parseInt numStr in
    if (num <=? 1000)%Z then
      let diff := Z.abs (area - num) in
      if (diff <=? 20)%Z then Some 40%Z
      else if (diff <=? 50)%Z then Some 20%Z
      else if (diff <=? 100)%Z then Some 10%Z
      else size_of_numbers rest area
    else size_of_numbers rest area
  end.

(** The loop over the size words. *)
Fixpoint size_of_words (learnedSizes : list (list N * (Z * Z)))
    (query : list N) (area : Z) : Z :=
  match learnedSizes with
  | [] => 0
  | (sizeWord, (min, max)) :: rest =>
    if includes query sizeWord && (min <=? area)%Z && (area <=? max)%Z
    then 30
    else size_of_words rest query area
  end.

Definition calculateAdaptiveSizeScore (query : list N) (area : Z) : Z :=
  match size_of_numbers (match_digits query) area with
  | Some s => s
  | None => size_of_words getLearnedSizePreferences query area
  end.

Fixpoint price_of_numbers (numbers : list (list N)) (price : Z) : option Q :=
  match numbers with
  | [] => None
  | numStr :: rest =>
    let num := parseInt numStr in
    if (1000 <? num)%Z then
      let diff := inject_Z (Z.abs (price - num)) in
      if Qle_bool diff (inject_Z num * (1 # 10)) then Some 40%Q
      else if Qle_bool diff (inject_Z num * (2 # 10)) then Some 20%Q
      else if Qle_bool diff (inject_Z num * (3 # 10)) then Some 10%Q
      else price_of_numbers rest price
    else price_of_numbers rest price
  end.

Definition priceWords : list (list N) :=
  map utf16 ["дешево"; "недорого"; "дорого"; "премиум"]%string.

Definition calculateAdaptivePriceScore (query : list N) (price : Z)
    (e : Engine) : Q :=
  match price_of_numbers (match_digits query) price with
  | Some s => s
  | None =>
    match List.find (fun word => includes query word) priceWords with
    | Some word =>
      let preference := preference_or e (utf16 "price_" ++ word) 0 in
      Qmin 30 (preference / 10)
    | None => 0%Q
    end
  end.

Definition listing_features (listing : Listing)
  : list (list (list N) * bool) :=
  [ (map utf16 ["парковка"; "паркинг"]%string, hasParking listing);
    (map utf16 ["склад"; "хранение"]%string, hasStorage listing);
    (map utf16 ["центр"]%string,
     includes (toLowerCase (location listing)) (utf16 "центр"));
    (map utf16 ["метро"]%string,
     includes (toLowerCase (location listing)) (utf16 "метро"));
    (map utf16 ["первый этаж"; "1 этаж"]%string,
     bool_decide (floor listing = 1%Z)) ].

Definition calculateFeatureScore (query : list N) (listing : Listing)
    (e : Engine) : Q :=
  foldl (fun score feature =>
           if existsb (fun keyword => includes query keyword) feature.1
              && feature.2
           then
             let featureName := hd [] feature.1 in
             let learnedWeight :=
               preference_or e (utf16 "feature_" ++ featureName) 1 in
             (score + 25 * learnedWeight)%Q
           else score)
        0%Q (listing_features listing).

Definition calculateContextualScore (query : list N) (listing : Listing)
    (e : Engine) : Q :=
  let mappings := contextualMappings (learningData e) in
  let similarQueries :=
    List.filter
      (fun savedQuery =>
         Q_gtb (calculateStringSimilarity query savedQuery) (7 # 10))
      (map fst (map_to_list mappings)) in
  if existsb
       (fun similarQuery =>
          let successfulListings :=
            match mappings !! similarQuery with
            | Some r => deref e r
            | None => []
            end in
          bool_decide (id listing ∈ successfulListings))
       similarQueries
  then 50%Q else 0%Q.

Definition calculateSemanticSimilarity (query text : list N) : Q :=
  let queryWords := split_spaces query in
  let textWords := split_spaces text in
  let matched :=
    List.filter
      (fun qWord =>
         (2 <? length qWord)
         && existsb
              (fun tWord =>
                 includes tWord qWord || includes qWord tWord
                 || Q_gtb (calculateStringSimilarity qWord tWord) (8 # 10))
              textWords)
      queryWords in
  (inject_Z (Z.of_nat (length matched))
   / inject_Z (Z.of_nat (length queryWords)) * 30)%Q.

(** [if (hit) { score += amount; matchedFeatures.push(name) }] *)
Definition add_feature (hit : bool) (amount : Q) (name : string)
    (acc : Q * list (list N)) : Q * list (list N) :=
  if hit then ((acc.1 + amount)%Q, acc.2 ++ [utf16 name]) else acc.

Definition listing_text (listing : Listing) : list N :=
  toLowerCase (title listing ++ utf16 " " ++ description listing
               ++ utf16 " " ++ location listing ++ utf16 " " ++ type listing).

Definition calculateAdaptiveScore (query : list N) (listing : Listing)
    (e : Engine) : result (Q * list (list N)) :=
  let text := listing_text listing in
  result_bind (getLearnedTypeKeywords (type listing) e) (fun typeKeywords =>
  let acc := (0%Q, []) in
  let acc :=
    add_feature (includes text query)
                (inject_Z (weight_or e "exact_match" 100)) "exact_match" acc in
  let acc :=
    add_feature (existsb (fun keyword => includes query keyword) typeKeywords)
                (inject_Z (weight_or e "type_match" 50)) "type_match" acc in
  let sizeScore := calculateAdaptiveSizeScore query (area listing) in
  let acc :=
    add_feature (0 <? sizeScore)%Z
                (inject_Z sizeScore * inject_Z (weight_or e "size_match" 30)
                 / 30)
                "size_match" acc in
  let priceScore := calculateAdaptivePriceScore query (price listing) e in
  let acc :=
    add_feature (Q_gtb priceScore 0)
                (priceScore * inject_Z (weight_or e "price_match" 30) / 30)
                "price_match" acc in
  let featureScore := calculateFeatureScore query listing e in
  let acc :=
    add_feature (Q_gtb featureScore 0)
                (featureScore * inject_Z (weight_or e "feature_match" 25) / 25)
                "feature_match" acc in
  let contextScore := calculateContextualScore query listing e in
  let acc :=
    add_feature (Q_gtb contextScore 0) contextScore "context_match" acc in
  let semanticScore := calculateSemanticSimilarity query text in
  let acc :=
    add_feature (Q_gtb semanticScore 0) semanticScore "semantic_match" acc in
  Ok acc).

(** ** Ranking *)

Definition calculateTypeBonus (type : list N) (e : Engine) : Q :=
  let typeFrequency :=
    preference_or e (utf16 "type_" ++ toLowerCase type) 0 in
  Qmin 20 (typeFrequency / 5).

Definition calculatePopularityScore (listingId : list N) (e : Engine) : Q :=
  let clickCount :=
    foldl (fun count interaction =>
             (count + if bool_decide
                          (listingId ∈ deref e (clickedListings interaction))
                      then 1 else 0)%Z)
          0%Z (successfulQueries (learningData e)) in
  inject_Z (Z.min 15 (clickCount * 2)).

(** [Array.prototype.sort] with a comparison function: the sort is
    stable (ECMAScript 2019), so with a consistent comparison every
    engine returns the array that inserting the elements one by one,
    from the right, returns.  [a] stays before [b] unless
    [compare a b > 0]. *)
Fixpoint sort_insert {A} (compare : A -> A -> Q) (a : A) (sorted : list A)
  : list A :=
  match sorted with
  | [] => [a]
  | b :: rest =>
    if Qle_bool (compare a b) 0 then a :: sorted
    else b :: sort_insert compare a rest
  end.

Definition array_sort {A} (compare : A -> A -> Q) (a : list A) : list A :=
  foldr (sort_insert compare) [] a.

(** The score the comparison function of [applyMLRanking] gives an
    entry. *)
Definition ranking_score (e : Engine) (a : SearchResult) : Q :=
  (score a + calculateTypeBonus (type (listing a)) e
   + calculatePopularityScore (id (listing a)) e)%Q.

Definition applyMLRanking (results : list SearchResult) (e : Engine)
  : list SearchResult :=
  array_sort (fun a b => (ranking_score e b - ranking_score e a)%Q) results.

(** [recordSearchMetrics] only writes a line to the console. *)
Definition search (query : list N) (listings : list Listing) (e : Engine)
  : Engine * result (list Listing) :=
  let e := set_currentQuery query e in
  let normalizedQuery := trim (toLowerCase query) in
  if decide (normalizedQuery = []) then (e, Ok listings)
  else
    (e,
     result_bind
       (result_map
          (fun listing =>
             result_bind (calculateAdaptiveScore normalizedQuery listing e)
               (fun r => Ok {| listing := listing; score := r.1;
                               matchedFeatures := r.2 |}))
          listings)
       (fun scoredListings =>
          let rankedListings := applyMLRanking scoredListings e in
          Ok (map listing
                (List.filter (fun item => Q_gtb (score item) 0)
                             rankedListings)))).

(** ** Recording what the user does *)

Definition recordClick (listingId : list N) (stored : bool) (e : Engine)
  : Engine :=
  if decide (currentQuery e <> []) then
    let mappings := contextualMappings (learningData e) in
    let '(existing, e1) :=
      match mappings !! currentQuery e with
      | Some r => (r, e)
      | None => new_array [] e
      end in
    if bool_decide (listingId ∈ deref e1 existing) then e
    else
      let e2 := array_push existing listingId e1 in
      let d := learningData e2 in
      let e3 :=
        set_learningData
          (set_contextualMappings (<[currentQuery e := existing]> mappings) d)
          e2 in
      saveLearningData stored e3
  else e.

(** [now] is [Date.now()]. *)
Definition recordFeedback (rating : Z) (now : Z) (stored : bool) (e : Engine)
  : Engine :=
  if decide (currentQuery e <> []) then
    let interaction :=
      {| query := currentQuery e; timestamp := now; resultsCount := 0;
         clickedListings := []; feedbackRating := Some rating;
         sessionId := currentSessionId e |} in
    recordInteraction interaction stored e
  else e.

(** ** Runs of the engine *)

Inductive Op :=
| Search (query : list N) (listings : list Listing)
| RecordClick (listingId : list N) (stored : bool)
| RecordFeedback (rating : Z) (now : Z) (stored : bool)
| RecordInteraction (interaction : UserInteraction (list (list N)))
                    (stored : bool).

Definition step (e : Engine) (op : Op) : Engine :=
  match op with
  | Search query listings => (search query listings e).1
  | RecordClick listingId stored => recordClick listingId stored e
  | RecordFeedback rating now stored => recordFeedback rating now stored e
  | RecordInteraction interaction stored =>
    recordInteraction interaction stored e
  end.

Definition run (ops : list Op) (e : Engine) : Engine := foldl step e ops.

(** The engine of a browser that has nothing saved: the default initial
    learning state. *)
Definition initial (session : list N) : Engine := new_engine session None.

(** ** Predicates of the specification *)

(** Every feature weight lies within 5 and 150. *)
Definition weights_in_range (e : Engine) : Prop :=
  map_Forall (fun _ w => (5 <= w <= 150)%Z) (featureWeights (learningData e)).

(** The matrix of [levenshteinDistance] while row [i] is being filled
    and holds [j] cells, when [f i j] is what the cell at row [i] and
    column [j] is to hold: the rows above are complete, the rows below
    hold their first cell. *)
Definition matrix_row (f : nat -> nat -> nat) (len1 : nat) (i j k : nat)
  : list nat :=
  if decide (k < i) then map (f k) (seq 0 (S len1))
  else if decide (k = i) then map (f i) (seq 0 j)
  else [k].

Definition matrix_filled (f : nat -> nat -> nat) (len1 len2 : nat)
    (m : list (list nat)) (i j : nat) : Prop :=
  length m = S len2
  /\ forall k, k <= len2 -> m !! k = Some (matrix_row f len1 i j k).




(** The relevance score of a listing for a normalised query (0 where
    scoring throws), and the score it is ranked by: relevance plus type
    bonus plus popularity bonus. *)
Definition relevance (e : Engine) (query : list N) (l : Listing) : Q :=
  match calculateAdaptiveScore query l e with
  | Ok r => r.1
  | TypeError => 0%Q
  end.

Definition final_score (e : Engine) (query : list N) (l : Listing) : Q :=
  (relevance e query l + calculateTypeBonus (type l) e
   + calculatePopularityScore (id l) e)%Q.


(** The listing's type, in lower case, is not the name of a member that
    the keyword table inherits. *)
Definition scorable (l : Listing) : Prop :=
  toLowerCase (type l) <> utf16 "constructor"
  /\ toLowerCase (type l) <> utf16 "__proto__".

(** ** Sample data for the concrete scenarios *)

Definition sample_listing (id title description : string) (area price : Z)
    (location type : string) (floor : Z) (hasParking hasStorage : bool)
  : Listing :=
  {| id := utf16 id; title := utf16 title; description := utf16 description;
     area := area; price := price; location := utf16 location;
     type := utf16 type; floor := floor; totalFloors := floor;
     hasParking := hasParking; hasStorage := hasStorage;
     contactName := []; contactPhone := []; contactEmail := [];
     images := []; createdAt := []; isActive := true; coordinates := None |}.

Definition sample_session : list N := utf16 "session_1_abc".

(** A fresh engine after one search for the word "office". *)
Definition engine_after_search : Engine :=
  run [Search (utf16 "офис") []] (initial sample_session).

(** An interaction without clicks and without a rating. *)
Definition sample_interaction (n : Z) : UserInteraction (list (list N)) :=
  {| query := utf16 "склад"; timestamp := n; resultsCount := 3;
     clickedListings := []; feedbackRating := None;
     sessionId := sample_session |}.

(** The calls [recordInteraction(i)] for a list of interactions [i], each
    with the flag that tells whether its write to the storage went
    through. *)
Definition interaction_calls
    (calls : list (UserInteraction (list (list N)) * bool)) : list Op :=
  map (fun c => RecordInteraction c.1 c.2) calls.


Definition shop_80 : Listing :=
  sample_listing "1" "Магазин у парка" "Светлое помещение с витриной" 80
                 100000 "улица Лесная, 5" "Магазин" 1 true false.

Definition office_85 : Listing :=
  sample_listing "2" "Помещение" "Просторное помещение" 85 120000
                 "улица Садовая, 12" "Офис" 2 false false.

(** A fresh engine that was told of one interaction in which listing 2
    was clicked. *)
Definition engine_after_click : Engine :=
  run [RecordInteraction
         {| query := utf16 "склад"; timestamp := 0; resultsCount := 2;
            clickedListings := [utf16 "2"]; feedbackRating := None;
            sessionId := sample_session |} true]
      (initial sample_session).

(** A listing whose type is the name of an inherited member; the server
    entry point that creates listings only asks for a type that is not
    empty. *)
Definition constructor_listing : Listing :=
  sample_listing "3" "Помещение" "Помещение свободного назначения" 60 90000
                 "улица Новая, 1" "Constructor" 1 false false.

(** ** Further predicates *)

(** [contextualMappings.get(query) || []]: the listings clicked after a
    query. *)
Definition clicked_after (e : Engine) (query : list N) : list (list N) :=
  match contextualMappings (learningData e) !! query with
  | Some r => deref e r
  | None => []
  end.

(** Every reference the engine holds names an array of the store, and no
    two queries of [contextualMappings] share an array. *)
Definition store_well_formed (e : Engine) : Prop :=
  (forall key r,
     contextualMappings (learningData e) !! key = Some r ->
     r < length (arrays e))
  /\ Forall (fun i : UserInteraction ref =>
               clickedListings i < length (arrays e))
            (successfulQueries (learningData e))
  /\ (forall key1 key2 r,
        contextualMappings (learningData e) !! key1 = Some r ->
        contextualMappings (learningData e) !! key2 = Some r ->
        key1 = key2).

(** The names of the features that matched a listing (none where scoring
    throws). *)
Definition matched (e : Engine) (query : list N) (l : Listing)
  : list (list N) :=
  match calculateAdaptiveScore query l e with
  | Ok r => r.2
  | TypeError => []
  end.

(** The seven terms of [calculateAdaptiveScore] in the order they are
    tried: whether the term fires, what it adds to the score, and the
    name it pushes. *)
Definition score_terms (query : list N) (listing : Listing) (e : Engine)
    (typeKeywords : list (list N)) : list (bool * Q * string) :=
  let text := listing_text listing in
  let sizeScore := calculateAdaptiveSizeScore query (area listing) in
  let priceScore := calculateAdaptivePriceScore query (price listing) e in
  let featureScore := calculateFeatureScore query listing e in
  let contextScore := calculateContextualScore query listing e in
  let semanticScore := calculateSemanticSimilarity query text in
  [ (includes text query,
     inject_Z (weight_or e "exact_match" 100), "exact_match");
    (existsb (fun keyword => includes query keyword) typeKeywords,
     inject_Z (weight_or e "type_match" 50), "type_match");
    ((0 <? sizeScore)%Z,
     (inject_Z sizeScore * inject_Z (weight_or e "size_match" 30) / 30)%Q,
     "size_match");
    (Q_gtb priceScore 0,
     (priceScore * inject_Z (weight_or e "price_match" 30) / 30)%Q,
     "price_match");
    (Q_gtb featureScore 0,
     (featureScore * inject_Z (weight_or e "feature_match" 25) / 25)%Q,
     "feature_match");
    (Q_gtb contextScore 0, contextScore, "context_match");
    (Q_gtb semanticScore 0, semanticScore, "semantic_match") ]%string.

Definition add_features (terms : list (bool * Q * string))
    (acc : Q * list (list N)) : Q * list (list N) :=
  foldl (fun acc t => add_feature t.1.1 t.1.2 t.2 acc) acc terms.

(** The names [calculateAdaptiveScore] can push, in its order. *)
Definition feature_names : list (list N) :=
  map utf16 ["exact_match"; "type_match"; "size_match"; "price_match";
             "feature_match"; "context_match"; "semantic_match"]%string.

(** The words [analyzeSuccessfulQuery] counts: the pieces of the
    lower-cased query that are longer than two units. *)
Definition mined_words (query : list N) : list (list N) :=
  List.filter (fun word => 2 <? length word)
              (split_spaces (toLowerCase query)).

(** How often a word occurs in a list of words. *)
Definition occurrences (word : list N) (words : list (list N)) : Z :=
  Z.of_nat (length (List.filter (fun w => bool_decide (w = word)) words)).

(** [queryPatterns.get(word) || 0] *)
Definition pattern_count (e : Engine) (word : list N) : Z :=
  match queryPatterns (learningData e) !! word with
  | Some n => n
  | None => 0
  end.

(** A fresh engine that was told six times of a click after the query
    "магазины". *)
Definition engine_after_six_clicks : Engine :=
  run (replicate 6
         (RecordInteraction
            {| query := utf16 "Магазины"; timestamp := 0; resultsCount := 1;
               clickedListings := [utf16 "1"]; feedbackRating := None;
               sessionId := sample_session |} true))
      (initial sample_session).


(** The interaction log with the clicked listings of each interaction
    written out. *)
Definition logged (e : Engine) : list (UserInteraction (list (list N))) :=
  map (fun i => with_clicked i (deref e (clickedListings i)))
      (successfulQueries (learningData e)).

(** * Properties *)

(** ** Sanity checks of the string primitives *)

Example utf16_ascii : utf16 "it 80" = [105; 116; 32; 56; 48]%N.
Proof. reflexivity. Qed.

Example utf16_cyrillic :
  utf16 "офис" = [1086; 1092; 1080; 1089]%N.
Proof. reflexivity. Qed.

Example lower_cyrillic : toLowerCase (utf16 "Склад") = utf16 "склад".
Proof. reflexivity. Qed.

Example split_edges :
  split_spaces (utf16 " a  bc ") = [[]; utf16 "a"; utf16 "bc"; []].
Proof. reflexivity. Qed.

Example split_empty : split_spaces [] = [[]].
Proof. reflexivity. Qed.

Example digits_runs :
  map parseInt (match_digits (utf16 "до 150000 и 80м")) = [150000; 80]%Z.
Proof. reflexivity. Qed.

Example levenshtein_kitten :
  levenshteinDistance (utf16 "sitting") (utf16 "kitten") = 3.
Proof. reflexivity. Qed.

Example edit_distance_kitten :
  edit_distance (utf16 "kitten") (utf16 "sitting") = 3.
Proof. reflexivity. Qed.

Example similarity_ofis :
  (calculateStringSimilarity (utf16 "офис") (utf16 "Офис") == 3 # 4)%Q.
Proof. reflexivity. Qed.

(** ** How the recording methods change the engine *)

Section Recording.

Implicit Types (e : Engine) (i : UserInteraction (list (list N))).

Lemma saveLearningData_learningData stored e :
  learningData (saveLearningData stored e) = learningData e.
Proof. by destruct stored. Qed.

Lemma saveLearningData_arrays stored e :
  arrays (saveLearningData stored e) = arrays e.
Proof. by destruct stored. Qed.

Lemma saveLearningData_currentQuery stored e :
  currentQuery (saveLearningData stored e) = currentQuery e.
Proof. by destruct stored. Qed.

Lemma saveLearningData_session stored e :
  currentSessionId (saveLearningData stored e) = currentSessionId e.
Proof. by destruct stored. Qed.

Ltac record_cases i :=
  unfold recordInteraction, new_array; cbn zeta beta iota;
  rewrite ?saveLearningData_learningData, ?saveLearningData_arrays,
    ?saveLearningData_currentQuery, ?saveLearningData_session;
  unfold updateWeightsBasedOnFeedback, analyzeSuccessfulQuery;
  destruct i as [? ? ? ? [?|] ?]; cbn;
  repeat case_decide; try congruence; try reflexivity.

Lemma recordInteraction_featureWeights i stored e :
  featureWeights (learningData (recordInteraction i stored e)) =
  match feedbackRating i with
  | Some rating =>
    adjusted_weight ((rating - 3) * 5) <$> featureWeights (learningData e)
  | None => featureWeights (learningData e)
  end.
Proof. record_cases i. Qed.

Lemma recordInteraction_successfulQueries i stored e :
  successfulQueries (learningData (recordInteraction i stored e)) =
  successfulQueries (learningData e)
    ++ [with_clicked i (length (arrays e))].
Proof. record_cases i. Qed.

Lemma recordInteraction_arrays i stored e :
  arrays (recordInteraction i stored e) = arrays e ++ [clickedListings i].
Proof. record_cases i. Qed.

Lemma recordInteraction_currentQuery i stored e :
  currentQuery (recordInteraction i stored e) = currentQuery e.
Proof. record_cases i. Qed.

Lemma recordInteraction_session i stored e :
  currentSessionId (recordInteraction i stored e) = currentSessionId e.
Proof. record_cases i. Qed.

Lemma recordInteraction_userPreferences i stored e :
  userPreferences (learningData (recordInteraction i stored e)) =
  userPreferences (learningData e).
Proof. record_cases i. Qed.

(** Without clicked listings nothing is mined from the query. *)
Lemma recordInteraction_no_click_patterns i stored e :
  clickedListings i = [] ->
  queryPatterns (learningData (recordInteraction i stored e)) =
  queryPatterns (learningData e).
Proof.
  intros Hc. record_cases i; cbn in *; subst;
    unfold deref in *; cbn in *;
    rewrite lookup_app_r, Nat.sub_diag in * by lia; cbn in *; lia.
Qed.

Lemma recordInteraction_no_click_mappings i stored e :
  clickedListings i = [] ->
  contextualMappings (learningData (recordInteraction i stored e)) =
  contextualMappings (learningData e).
Proof.
  intros Hc. record_cases i; cbn in *; subst;
    unfold deref in *; cbn in *;
    rewrite lookup_app_r, Nat.sub_diag in * by lia; cbn in *; lia.
Qed.

Lemma search_engine query listings e :
  (search query listings e).1 = set_currentQuery query e.
Proof. unfold search. by case_decide. Qed.

Lemma recordClick_featureWeights listingId stored e :
  featureWeights (learningData (recordClick listingId stored e)) =
  featureWeights (learningData e).
Proof.
  unfold recordClick. case_decide; [|done].
  destruct (contextualMappings (learningData e) !! currentQuery e);
    cbn; case_bool_decide; try done;
    by rewrite saveLearningData_learningData.
Qed.

Lemma recordClick_queryPatterns listingId stored e :
  queryPatterns (learningData (recordClick listingId stored e)) =
  queryPatterns (learningData e).
Proof.
  unfold recordClick. case_decide; [|done].
  destruct (contextualMappings (learningData e) !! currentQuery e);
    cbn; case_bool_decide; try done;
    by rewrite saveLearningData_learningData.
Qed.

End Recording.

(** ** The feature weights stay within 5 and 150 *)

Lemma adjusted_weight_range adjustment weight :
  (5 <= adjusted_weight adjustment weight <= 150)%Z.
Proof. unfold adjusted_weight. lia. Qed.

Lemma weights_in_range_initial session : weights_in_range (initial session).
Proof.
  unfold weights_in_range, initial, new_engine. cbn.
  unfold Map_of_entries, default_featureWeights. cbn.
  repeat (apply map_Forall_insert_2; [lia|]).
  apply map_Forall_empty.
Qed.

Lemma weights_in_range_step e op :
  weights_in_range e -> weights_in_range (step e op).
Proof.
  unfold weights_in_range. intros He.
  destruct op as [q ls|lid st|rating now st|i st]; unfold step.
  - by rewrite search_engine.
  - by rewrite recordClick_featureWeights.
  - unfold recordFeedback. case_decide; [|done].
    rewrite recordInteraction_featureWeights. cbn.
    intros k w. rewrite lookup_fmap.
    destruct (featureWeights (learningData e) !! k); [|done].
    intros [= <-]. apply adjusted_weight_range.
  - rewrite recordInteraction_featureWeights.
    destruct (feedbackRating i); [|done].
    intros k w. rewrite lookup_fmap.
    destruct (featureWeights (learningData e) !! k); [|done].
    intros [= <-]. apply adjusted_weight_range.
Qed.

Lemma weights_in_range_run ops e :
  weights_in_range e -> weights_in_range (run ops e).
Proof.
  revert e. induction ops as [|op ops IH]; intros e He; [done|].
  apply IH, weights_in_range_step, He.
Qed.


(** ** Feedback *)









(** C10. Whatever the rating, [recordFeedback] leaves [queryPatterns],
    [userPreferences] and [contextualMappings] exactly as they were, and
    with them the current query, the session and every array that
    existed: the interaction it builds has no clicked listings, so
    nothing is mined.  What may change is [featureWeights], the
    interaction log, the saved copy, and the store, which gains the
    empty [clickedListings] array of the new interaction. *)
Theorem feedback_frame rating now stored e :
  let e' := recordFeedback rating now stored e in
  queryPatterns (learningData e') = queryPatterns (learningData e)
  /\ userPreferences (learningData e') = userPreferences (learningData e)
  /\ contextualMappings (learningData e')
     = contextualMappings (learningData e)
  /\ currentQuery e' = currentQuery e
  /\ currentSessionId e' = currentSessionId e
  /\ (arrays e' = arrays e \/ arrays e' = arrays e ++ [[]]).
Proof.
  cbn zeta. unfold recordFeedback. case_decide; [|by auto 10].
  rewrite recordInteraction_no_click_patterns,
    recordInteraction_no_click_mappings, recordInteraction_userPreferences,
    recordInteraction_currentQuery, recordInteraction_session,
    recordInteraction_arrays by done.
  by auto 10.
Qed.

(** ** The interaction log *)

Lemma with_clicked_back {A} (i : UserInteraction (list (list N))) (r : A) :
  with_clicked (with_clicked i r) (clickedListings i) = i.
Proof. by destruct i. Qed.

Lemma run_snoc ops op e : run (ops ++ [op]) e = step (run ops e) op.
Proof. unfold run. by rewrite foldl_snoc. Qed.

Lemma run_interaction_calls calls e :
  successfulQueries (learningData (run (interaction_calls calls) e)) =
    successfulQueries (learningData e)
      ++ imap (fun k c => with_clicked c.1 (length (arrays e) + k)) calls
  /\ arrays (run (interaction_calls calls) e) =
     arrays e ++ map (fun c => clickedListings c.1) calls.
Proof.
  revert e. induction calls as [|c calls IH]; intros e.
  - cbn. by rewrite !app_nil_r.
  - cbn [interaction_calls map run foldl step].
    destruct (IH (recordInteraction c.1 c.2 e)) as [Hlog Harr].
    unfold interaction_calls, run in Hlog, Harr. rewrite Hlog, Harr.
    rewrite recordInteraction_successfulQueries, recordInteraction_arrays.
    rewrite <- !app_assoc. cbn. split; [|done].
    do 2 f_equal. rewrite Nat.add_0_r. f_equal.
    apply imap_ext. intros k x _. cbn. rewrite length_app. cbn.
    f_equal. lia.
Qed.

Lemma slice_last_app {A} n (old new : list A) :
  n <= length new -> slice_last n (old ++ new) = slice_last n new.
Proof.
  intros Hn. unfold slice_last. rewrite length_app.
  replace (length old + length new - n)
    with (length old + (length new - n)) by lia.
  by rewrite drop_app_add.
Qed.

Lemma slice_last_length {A} n (a : list A) :
  n <= length a -> length (slice_last n a) = n.
Proof. intros Hn. unfold slice_last. rewrite length_drop. lia. Qed.

(** Reading the logged interactions back through the store gives the
    interactions that were handed in. *)
Lemma logged_interactions_view (h : list (list (list N)))
    (cs : list (UserInteraction (list (list N)) * bool)) :
  map (fun i : UserInteraction ref =>
         with_clicked i
           (default [] ((h ++ map (fun c => clickedListings c.1) cs)
                          !! clickedListings i)))
      (imap (fun k c => with_clicked c.1 (length h + k)) cs)
  = map fst cs.
Proof.
  apply list_eq. intros k.
  rewrite !list_lookup_fmap, list_lookup_imap.
  destruct (cs !! k) as [c|] eqn:Hk; cbn; [|done].
  f_equal. rewrite lookup_app_r by lia.
  replace (length h + k - length h) with k by lia.
  rewrite list_lookup_fmap, Hk. cbn. apply with_clicked_back.
Qed.

Lemma recordInteraction_stored i e :
  recordInteraction i true e =
  set_localStorage (Some (toSave (recordInteraction i false e)))
                   (recordInteraction i false e).
Proof. reflexivity. Qed.

(** C6, refuted as stated: the log the engine holds in memory is not cut.
    After 1001 [recordInteraction] calls on a fresh engine it has 1001
    entries. *)
Lemma memory_log_unbounded_counterexample :
  length (successfulQueries (learningData
    (run (interaction_calls (replicate 1001 (sample_interaction 0, true)))
         (initial sample_session)))) = 1001
  /\ 1001 <> 1000.
Proof.
  split; [|lia].
  rewrite (proj1 (run_interaction_calls _ _)).
  rewrite length_app, length_imap, length_replicate. reflexivity.
Qed.

(** C6, amended.  It is the copy of the log that [saveLearningData]
    writes which is bounded.  After more than 1000 [recordInteraction]
    calls, the last of which reached the storage, the saved log has
    exactly 1000 entries: the 1000 most recent interactions, in the
    order they arrived.  The log in memory keeps all of them. *)
Theorem saved_log_bounded e
    (calls : list (UserInteraction (list (list N)) * bool))
    (last : UserInteraction (list (list N))) :
  1000 <= length calls ->
  let interactions := map fst calls ++ [last] in
  let e' := run (interaction_calls (calls ++ [(last, true)])) e in
  (exists saved,
     localStorage e' = Some saved
     /\ saved_successfulQueries saved = slice_last 1000 interactions
     /\ length (saved_successfulQueries saved) = 1000)
  /\ length (successfulQueries (learningData e')) =
     length (successfulQueries (learningData e)) + length interactions.
Proof.
  intros Hlen interactions e'.
  assert (Hrun : e' = recordInteraction last true (run (interaction_calls calls) e)).
  { unfold e', interaction_calls. rewrite map_app. cbn [map].
    by rewrite run_snoc. }
  assert (Hint : interactions = map fst (calls ++ [(last, false)])).
  { unfold interactions. by rewrite map_app. }
  assert (Hfalse :
    recordInteraction last false (run (interaction_calls calls) e) =
    run (interaction_calls (calls ++ [(last, false)])) e).
  { unfold interaction_calls. rewrite map_app. cbn [map].
    by rewrite run_snoc. }
  destruct (run_interaction_calls (calls ++ [(last, false)]) e)
    as [Hlog Harr].
  assert (Hn : 1000 <= length (calls ++ [(last, false)]))
    by (rewrite length_app; lia).
  split.
  - eexists. rewrite Hrun, recordInteraction_stored. split; [reflexivity|].
    rewrite Hfalse.
    assert (Hsaved :
      saved_successfulQueries
        (toSave (run (interaction_calls (calls ++ [(last, false)])) e))
      = slice_last 1000 interactions).
    { unfold toSave at 1. cbn [saved_successfulQueries].
      unfold deref. rewrite Hlog, Harr.
      rewrite slice_last_app by (by rewrite length_imap).
      unfold slice_last at 1. rewrite length_imap.
      rewrite <- (logged_interactions_view (arrays e)) in Hint.
      rewrite Hint. unfold slice_last.
      rewrite length_map, length_imap.
      apply (fmap_drop _ _ _). }
    split; [exact Hsaved|].
    rewrite Hsaved. apply slice_last_length.
    rewrite Hint, length_map. exact Hn.
  - rewrite Hrun, recordInteraction_successfulQueries.
    rewrite (proj1 (run_interaction_calls calls e)).
    unfold interactions.
    rewrite !length_app, length_imap, length_map. cbn. lia.
Qed.

Lemma saved_log_bounded_witness :
  1000 <= length (replicate 1000 (sample_interaction 0, false))
  /\ length (successfulQueries (learningData
       (run (interaction_calls
               (replicate 1000 (sample_interaction 0, false)
                  ++ [(sample_interaction 1, true)]))
            (initial sample_session)))) =
     length (successfulQueries (learningData (initial sample_session)))
     + length (map fst (replicate 1000 (sample_interaction 0, false))
               ++ [sample_interaction 1]).
Proof.
  assert (H : 1000 <= length (replicate 1000 (sample_interaction 0, false)))
    by (rewrite length_replicate; lia).
  split; [exact H|].
  exact (proj2 (saved_log_bounded (initial sample_session)
                  (replicate 1000 (sample_interaction 0, false))
                  (sample_interaction 1) H)).
Defined.

(** ** Keys of the learned maps *)





















(** ** Searching *)

(** C4. When the query is empty once lower-cased and trimmed, [search]
    returns the given listings themselves, in their order: nothing is
    scored (so nothing can throw), nothing is filtered; the engine only
    remembers the query as its current query. *)
Theorem empty_query_passthrough query listings e :
  trim (toLowerCase query) = [] ->
  search query listings e = (set_currentQuery query e, Ok listings).
Proof. intros Hq. unfold search. by case_decide. Qed.

Lemma empty_query_passthrough_witness :
  trim (toLowerCase (utf16 "  ")) = []
  /\ search (utf16 "  ") [shop_80; office_85] (initial sample_session)
     = (set_currentQuery (utf16 "  ") (initial sample_session),
        Ok [shop_80; office_85]).
Proof.
  assert (H : trim (toLowerCase (utf16 "  ")) = []) by reflexivity.
  split; [exact H|].
  exact (empty_query_passthrough (utf16 "  ") [shop_80; office_85]
           (initial sample_session) H).
Defined.

(** ** The size term *)

Lemma size_of_numbers_skip before rest area :
  Forall (fun s => (1000 < parseInt s
                    \/ 100 < Z.abs (area - parseInt s))%Z) before ->
  size_of_numbers (before ++ rest) area = size_of_numbers rest area.
Proof.
  induction 1 as [|s before Hs _ IH]; [done|].
  cbn [app size_of_numbers]. cbn zeta.
  destruct (Z.leb_spec (parseInt s) 1000); [|exact IH].
  destruct (Z.leb_spec (Z.abs (area - parseInt s)) 20); [lia|].
  destruct (Z.leb_spec (Z.abs (area - parseInt s)) 50); [lia|].
  destruct (Z.leb_spec (Z.abs (area - parseInt s)) 100); [lia|].
  exact IH.
Qed.

(** C8. With the default weights the query "80" gives a listing of area
    85 a raw size score of 40 (the difference 5 is at most 20), the
    weight of [size_match] is 30, and the listing's total score is that
    40 * 30 / 30 = 40, with [size_match] its only matched feature.  In
    general the numbers of the query are scanned from the left; numbers
    above 1000 and numbers more than 100 away from the area are passed
    over, and the first number [n <= 1000] within 100 of the area ends
    the scan with 40, 20 or 10 as the difference is at most 20, 50 or
    100. *)
Theorem size_term :
  (calculateAdaptiveSizeScore (utf16 "80") 85 = 40%Z
   /\ forall session,
        weight_or (initial session) "size_match" 30 = 30%Z
        /\ exists total,
             calculateAdaptiveScore (utf16 "80") office_85 (initial session)
             = Ok (total, [utf16 "size_match"])
             /\ (total == inject_Z 40 * inject_Z 30 / 30)%Q
             /\ (total == 40)%Q)
  /\ (forall query area before numStr after,
        match_digits query = before ++ numStr :: after ->
        Forall (fun s => (1000 < parseInt s
                          \/ 100 < Z.abs (area - parseInt s))%Z) before ->
        (parseInt numStr <= 1000)%Z ->
        (Z.abs (area - parseInt numStr) <= 100)%Z ->
        calculateAdaptiveSizeScore query area =
          let diff := Z.abs (area - parseInt numStr) in
          if (diff <=? 20)%Z then 40%Z
          else if (diff <=? 50)%Z then 20%Z else 10%Z).
Proof.
  split.
  - split; [reflexivity|]. intros session. split; [reflexivity|].
    eexists. split; [vm_compute; reflexivity|]. by vm_compute.
  - intros query area before numStr after Hm Hbefore Hn Hdiff.
    unfold calculateAdaptiveSizeScore.
    rewrite Hm, size_of_numbers_skip by done.
    cbn [size_of_numbers]. cbn zeta.
    destruct (Z.leb_spec (parseInt numStr) 1000); [|lia].
    destruct (Z.leb_spec (Z.abs (area - parseInt numStr)) 20); [done|].
    destruct (Z.leb_spec (Z.abs (area - parseInt numStr)) 50); [done|].
    destruct (Z.leb_spec (Z.abs (area - parseInt numStr)) 100); [done|].
    lia.
Qed.

Lemma size_term_witness :
  match_digits (utf16 "до 150000 руб, 130 м")
    = [utf16 "150000"] ++ utf16 "130" :: []
  /\ calculateAdaptiveSizeScore (utf16 "до 150000 руб, 130 м") 85 = 20%Z.
Proof.
  assert (Hm : match_digits (utf16 "до 150000 руб, 130 м")
               = [utf16 "150000"] ++ utf16 "130" :: []) by reflexivity.
  split; [exact Hm|].
  apply (proj2 size_term (utf16 "до 150000 руб, 130 м") 85%Z
           [utf16 "150000"] (utf16 "130") [] Hm).
  - constructor; [left; reflexivity|constructor].
  - vm_compute. discriminate.
  - vm_compute. discriminate.
Defined.

(** ** Sorting *)

Section Sorting.

Context {A : Type} (key : A -> Q).

Let compare (a b : A) : Q := (key b - key a)%Q.
Let before (a b : A) : Prop := (key b <= key a)%Q.









End Sorting.






Lemma Q_gtb_lt a b : Q_gtb a b = true <-> (b < a)%Q.
Proof.
  unfold Q_gtb. rewrite negb_true_iff. split.
  - intros H. apply Qnot_le_lt. intros Hle.
    apply Qle_bool_iff in Hle. congruence.
  - intros H. destruct (Qle_bool a b) eqn:Hle; [|done].
    apply Qle_bool_iff in Hle. lra.
Qed.

(** ** Ranking *)

Lemma calculateAdaptiveScore_returns query l e :
  scorable l -> exists r, calculateAdaptiveScore query l e = Ok r.
Proof.
  intros [Hc Hp]. unfold calculateAdaptiveScore, getLearnedTypeKeywords.
  unfold baseKeywords. repeat case_decide; cbn [result_bind]; try by eexists.
  tauto.
Qed.









Example search_office_80 :
  (search (utf16 " Офис 80 ") [shop_80; office_85] engine_after_click).2
  = Ok [office_85; shop_80].
Proof. vm_compute. reflexivity. Qed.

(** ** Edit distance *)

Lemma edit_distance_cons c d s t :
  edit_distance (c :: s) (d :: t) =
  min3 (edit_distance s t + (if decide (c = d) then 0 else 1))
       (S (edit_distance s (d :: t)))
       (S (edit_distance (c :: s) t)).
Proof. reflexivity. Qed.

Lemma edit_distance_nil_r s : edit_distance s [] = length s.
Proof. by destruct s. Qed.

Lemma edit_insert_all t : edit [] t (length t).
Proof. induction t; cbn; by constructor. Qed.

Lemma edit_delete_all s : edit s [] (length s).
Proof. induction s; cbn; by constructor. Qed.

(** The recurrence is the cost of some script ... *)
Lemma edit_distance_sound s t : edit s t (edit_distance s t).
Proof.
  revert t. induction s as [|c s IHs]; intros t.
  - apply edit_insert_all.
  - induction t as [|d t IHt].
    + apply (edit_delete_all (c :: s)).
    + rewrite edit_distance_cons. unfold min3.
      destruct (Nat.min_spec
                  (Nat.min (edit_distance s t
                            + (if decide (c = d) then 0 else 1))
                           (S (edit_distance s (d :: t))))
                  (S (edit_distance (c :: s) t))) as [[_ ->]|[_ ->]].
      * destruct (Nat.min_spec
                    (edit_distance s t + (if decide (c = d) then 0 else 1))
                    (S (edit_distance s (d :: t)))) as [[_ ->]|[_ ->]].
        -- case_decide.
           ++ subst. rewrite Nat.add_0_r. by constructor.
           ++ rewrite Nat.add_1_r. by constructor.
        -- by constructor.
      * by constructor.
Qed.

(** ... and no script is cheaper. *)
Lemma edit_distance_least s t n : edit s t n -> edit_distance s t <= n.
Proof.
  induction 1 as [|c s t n _ IH|c d s t n _ IH|c s t n _ IH|d s t n _ IH].
  - done.
  - rewrite edit_distance_cons. unfold min3. case_decide; [lia|done].
  - rewrite edit_distance_cons. unfold min3. case_decide; lia.
  - destruct t as [|d t].
    + rewrite edit_distance_nil_r in *. cbn. lia.
    + rewrite edit_distance_cons. unfold min3. lia.
  - destruct s as [|c s].
    + cbn in *. lia.
    + rewrite edit_distance_cons. unfold min3. lia.
Qed.

Lemma edit_distance_least_cost s t : least_edit_cost s t (edit_distance s t).
Proof.
  split; [apply edit_distance_sound|]. intros m. apply edit_distance_least.
Qed.

Lemma edit_sym s t n : edit s t n -> edit t s n.
Proof. induction 1; by constructor. Qed.

Lemma edit_app s t n s' t' m :
  edit s t n -> edit s' t' m -> edit (s ++ s') (t ++ t') (n + m).
Proof. intros H H'. induction H; cbn; by try constructor. Qed.

Lemma edit_rev s t n : edit s t n -> edit (rev s) (rev t) n.
Proof.
  induction 1 as [|c s t n _ IH|c d s t n _ IH|c s t n _ IH|d s t n _ IH];
    cbn.
  - constructor.
  - rewrite <- (Nat.add_0_r n). apply edit_app; [done|].
    repeat constructor.
  - rewrite <- Nat.add_1_r. apply edit_app; [done|]. repeat constructor.
  - rewrite <- Nat.add_1_r, <- (app_nil_r (rev t)).
    apply edit_app; [done|]. repeat constructor.
  - rewrite <- Nat.add_1_r, <- (app_nil_r (rev s)).
    apply edit_app; [done|]. repeat constructor.
Qed.

Lemma edit_distance_sym s t : edit_distance s t = edit_distance t s.
Proof.
  apply Nat.le_antisymm;
    apply edit_distance_least, edit_sym, edit_distance_sound.
Qed.

Lemma edit_distance_rev s t :
  edit_distance (rev s) (rev t) = edit_distance s t.
Proof.
  apply Nat.le_antisymm.
  - apply edit_distance_least, edit_rev, edit_distance_sound.
  - apply edit_distance_least.
    pose proof (edit_rev _ _ _ (edit_distance_sound (rev s) (rev t))) as H.
    by rewrite !rev_involutive in H.
Qed.

(** Dropping the first unit of the source costs at most one more. *)
Lemma edit_drop_head c s t n :
  edit (c :: s) t n -> edit_distance s t <= S n.
Proof.
  intros H. remember (c :: s) as u eqn:Hu. revert c s Hu.
  induction H as [|c' s' t n H IH|c' d s' t n H IH|c' s' t n H IH
                  |d s' t n H IH]; intros c s Hu.
  - discriminate.
  - injection Hu as -> ->.
    pose proof (edit_distance_least _ _ _ (edit_insert c _ _ _ H)). lia.
  - injection Hu as -> ->.
    pose proof (edit_distance_least _ _ _ (edit_insert d _ _ _ H)). lia.
  - injection Hu as -> ->.
    pose proof (edit_distance_least _ _ _ H). lia.
  - subst s'. specialize (IH c s eq_refl).
    pose proof (edit_distance_least _ _ _
                  (edit_insert d _ _ _ (edit_distance_sound s t))). lia.
Qed.

Lemma edit_distance_drop_l c s t :
  edit_distance s t <= S (edit_distance (c :: s) t).
Proof. eapply edit_drop_head, edit_distance_sound. Qed.

Lemma edit_distance_drop_r d s t :
  edit_distance s t <= S (edit_distance s (d :: t)).
Proof.
  rewrite (edit_distance_sym s t), (edit_distance_sym s (d :: t)).
  apply edit_distance_drop_l.
Qed.

(** The recurrence in the shape the matrix is filled in. *)
Lemma edit_distance_step c d s t :
  edit_distance (c :: s) (d :: t) =
  if decide (c = d) then edit_distance s t
  else min3 (edit_distance s t + 1)
            (edit_distance (c :: s) t + 1)
            (edit_distance s (d :: t) + 1).
Proof.
  rewrite edit_distance_cons. unfold min3.
  pose proof (edit_distance_drop_l c s t).
  pose proof (edit_distance_drop_r d s t).
  case_decide; lia.
Qed.

Lemma edit_distance_snoc c d s t :
  edit_distance (s ++ [c]) (t ++ [d]) =
  if decide (c = d) then edit_distance s t
  else min3 (edit_distance s t + 1)
            (edit_distance (s ++ [c]) t + 1)
            (edit_distance s (t ++ [d]) + 1).
Proof.
  rewrite <- (edit_distance_rev (s ++ [c]) (t ++ [d])).
  rewrite <- (edit_distance_rev s t).
  rewrite <- (edit_distance_rev (s ++ [c]) t).
  rewrite <- (edit_distance_rev s (t ++ [d])).
  rewrite !rev_app_distr. cbn. apply edit_distance_step.
Qed.

Lemma edit_distance_same s : edit_distance s s = 0.
Proof.
  assert (H : edit s s 0) by (induction s; by constructor).
  apply edit_distance_least in H. lia.
Qed.

Lemma edit_within_length s t :
  exists n, edit s t n /\ n <= Nat.max (length s) (length t).
Proof.
  revert t. induction s as [|c s IH]; intros t.
  - exists (length t). split; [apply edit_insert_all|cbn; lia].
  - destruct t as [|d t].
    + exists (length (c :: s)). split; [apply edit_delete_all|cbn; lia].
    + destruct (IH t) as [n [Hn Hle]]. exists (S n).
      split; [by constructor|cbn; lia].
Qed.

Lemma edit_distance_bound s t :
  edit_distance s t <= Nat.max (length s) (length t).
Proof.
  destruct (edit_within_length s t) as [n [Hn Hle]].
  apply edit_distance_least in Hn. lia.
Qed.

(** ** The matrix of [levenshteinDistance] *)

Lemma foldl_seq_invariant {A} (P : nat -> A -> Prop) (g : A -> nat -> A)
    (a : A) (s n : nat) :
  P s a ->
  (forall k x, s <= k < s + n -> P k x -> P (S k) (g x k)) ->
  P (s + n) (foldl g a (seq s n)).
Proof.
  revert s a. induction n as [|n IH]; intros s a Ha Hg; cbn.
  - by rewrite Nat.add_0_r.
  - rewrite <- Nat.add_succ_comm. apply IH.
    + apply Hg; [lia|done].
    + intros k x Hk. apply Hg. lia.
Qed.

Section Matrix.

Variables str1 str2 : list N.

(** [f i j] is what the cell at row [i], column [j] is to hold. *)
Variable f : nat -> nat -> nat.
Hypothesis f_row0 : forall j, j <= length str1 -> f 0 j = j.
Hypothesis f_col0 : forall i, i <= length str2 -> f i 0 = i.
Hypothesis f_step :
  forall i j,
    i < length str2 -> j < length str1 ->
    f (S i) (S j) =
    if decide (charAt str2 i = charAt str1 j) then f i j
    else min3 (f i j + 1) (f (S i) j + 1) (f i (S j) + 1).

Local Abbreviation row_at := (matrix_row f (length str1)).
Local Abbreviation filled_to :=
  (matrix_filled f (length str1) (length str2)).

Lemma filled_to_get m i j k l :
  filled_to m i j -> k <= length str2 ->
  (k < i /\ l <= length str1) \/ (k = i /\ l < j) ->
  matrix_get m k l = f k l.
Proof.
  intros [_ Hm] Hk Hl. unfold matrix_get.
  rewrite (list_lookup_total_correct _ _ _ (Hm k Hk)).
  apply list_lookup_total_correct.
  unfold matrix_row. destruct Hl as [[Hki Hl]|[-> Hl]].
  - rewrite decide_True by done.
    rewrite list_lookup_fmap, lookup_seq_lt by lia. done.
  - rewrite decide_False, decide_True by lia.
    rewrite list_lookup_fmap, lookup_seq_lt by lia. done.
Qed.

Lemma filled_to_set m i j :
  filled_to m i j -> i <= length str2 -> 1 <= j ->
  filled_to (matrix_set m i j (f i j)) i (S j).
Proof.
  intros [Hlen Hm] Hi Hj. unfold matrix_set.
  rewrite (list_lookup_total_correct _ _ _ (Hm i Hi)).
  assert (Hrow : row_at i j i = map (f i) (seq 0 j)).
  { unfold matrix_row. by rewrite decide_False, decide_True by lia. }
  rewrite Hrow. unfold array_set at 2.
  rewrite length_map, length_seq, decide_False by lia.
  rewrite Nat.sub_diag. cbn [replicate app].
  unfold array_set. rewrite decide_True by lia.
  split; [by rewrite length_insert|].
  intros k Hk. destruct (decide (k = i)) as [->|Hne].
  - rewrite list_lookup_insert_eq by lia. f_equal.
    unfold matrix_row. rewrite decide_False, decide_True by lia.
    by rewrite seq_S, map_app.
  - rewrite list_lookup_insert_ne by done. rewrite Hm by done.
    f_equal. unfold matrix_row. repeat case_decide; done || lia.
Qed.

Lemma filled_to_next_row m i :
  filled_to m i (S (length str1)) -> i < length str2 ->
  filled_to m (S i) 1.
Proof.
  intros [Hlen Hm] Hi. split; [done|]. intros k Hk. rewrite Hm by done.
  f_equal. unfold matrix_row. repeat case_decide; try done; try lia.
  - by subst.
  - subst. cbn. by rewrite f_col0 by lia.
Qed.

Lemma filled_to_start :
  filled_to
    (foldl (fun m i => array_set [] m i [i]) [] (seq 0 (S (length str2))))
    0 1.
Proof.
  assert (H : forall n,
    foldl (fun m i => array_set [] m i [i]) [] (seq 0 n)
    = map (fun i => [i]) (seq 0 n)).
  { induction n as [|n IH]; [done|].
    rewrite seq_S, foldl_app, IH. cbn [foldl]. unfold array_set.
    rewrite length_map, length_seq, decide_False by lia.
    rewrite Nat.sub_diag. cbn [replicate app]. by rewrite map_app. }
  rewrite H. split; [by rewrite length_map, length_seq|].
  intros k Hk. rewrite list_lookup_fmap, lookup_seq_lt by lia. cbn.
  f_equal. unfold matrix_row. repeat case_decide; try done; try lia.
  subst. cbn. by rewrite f_row0 by lia.
Qed.

Lemma filled_to_row0 m :
  filled_to m 0 1 ->
  filled_to (foldl (fun m j => matrix_set m 0 j j) m
                   (seq 0 (S (length str1))))
            0 (S (length str1)).
Proof.
  intros Hm. cbn [seq foldl].
  assert (H0 : matrix_set m 0 0 0 = m).
  { destruct Hm as [Hlen Hm]. unfold matrix_set.
    rewrite (list_lookup_total_correct _ _ _ (Hm 0 (Nat.le_0_l _))).
    unfold matrix_row. rewrite decide_False, decide_True by lia. cbn.
    rewrite f_row0 by lia. unfold array_set. cbn.
    rewrite decide_True by lia.
    apply list_insert_id. rewrite (Hm 0 (Nat.le_0_l _)). f_equal.
    unfold matrix_row. rewrite decide_False, decide_True by lia. cbn.
    by rewrite f_row0 by lia. }
  rewrite H0.
  apply (foldl_seq_invariant (fun j m => filled_to m 0 j)
           (fun m j => matrix_set m 0 j j) m 1 (length str1) Hm).
  intros j x Hj Hx. rewrite <- (f_row0 j) at 2 by lia.
  apply filled_to_set; [done|lia|lia].
Qed.

Lemma filled_to_cell m i j :
  filled_to m i j -> 1 <= i <= length str2 -> 1 <= j <= length str1 ->
  filled_to (levenshtein_cell str1 str2 i m j) i (S j).
Proof.
  intros Hm Hi Hj. unfold levenshtein_cell.
  rewrite !(filled_to_get m i j) by (done || lia).
  pose proof (f_step (i - 1) (j - 1) ltac:(lia) ltac:(lia)) as Hstep.
  replace (S (i - 1)) with i in Hstep by lia.
  replace (S (j - 1)) with j in Hstep by lia.
  case_decide; rewrite <- Hstep; apply filled_to_set; done || lia.
Qed.

Lemma filled_to_rows m :
  filled_to m 0 (S (length str1)) ->
  filled_to
    (foldl (fun m i => foldl (levenshtein_cell str1 str2 i) m
                             (seq 1 (length str1)))
           m (seq 1 (length str2)))
    (length str2) (S (length str1)).
Proof.
  intros Hm.
  replace (length str2) with (1 + length str2 - 1) at 3 by lia.
  apply (foldl_seq_invariant
           (fun i m => filled_to m (i - 1) (S (length str1)))
           (fun m i => foldl (levenshtein_cell str1 str2 i) m
                             (seq 1 (length str1)))
           m 1 (length str2) Hm).
  intros i x Hi Hx. replace (S i - 1) with i by lia.
  apply (foldl_seq_invariant (fun j m => filled_to m i j)
           (levenshtein_cell str1 str2 i) x 1 (length str1)).
  - replace i with (S (i - 1)) by lia.
    apply filled_to_next_row; [done|lia].
  - intros j y Hj Hy. apply filled_to_cell; [done|lia|lia].
Qed.

Lemma levenshteinDistance_table :
  levenshteinDistance str1 str2 = f (length str2) (length str1).
Proof.
  unfold levenshteinDistance, levenshtein_matrix. cbn zeta.
  apply (filled_to_get _ (length str2) (S (length str1)));
    [|done|right; lia].
  apply filled_to_rows, filled_to_row0, filled_to_start.
Qed.

End Matrix.

(** ** Similarity *)

(** The matrix computes the edit distance. *)
Lemma levenshteinDistance_edit_distance str1 str2 :
  levenshteinDistance str1 str2 = edit_distance str1 str2.
Proof.
  rewrite (edit_distance_sym str1 str2).
  rewrite (levenshteinDistance_table str1 str2
             (fun i j => edit_distance (take i str2) (take j str1))).
  - by rewrite !firstn_all.
  - intros j Hj. change (length (take j str1) = j).
    rewrite length_take. lia.
  - intros i Hi. change (edit_distance (take i str2) [] = i).
    rewrite edit_distance_nil_r, length_take. lia.
  - intros i j Hi Hj. unfold charAt.
    destruct (lookup_lt_is_Some_2 str2 i Hi) as [c2 H2].
    destruct (lookup_lt_is_Some_2 str1 j Hj) as [c1 H1].
    rewrite (take_S_r _ _ _ H2), (take_S_r _ _ _ H1), H1, H2.
    rewrite edit_distance_snoc.
    destruct (decide (c2 = c1)) as [->|Hne].
    + by rewrite decide_True.
    + rewrite decide_False by congruence. done.
Qed.

Lemma similarity_formula a b :
  calculateStringSimilarity a b =
  if decide (Nat.max (length a) (length b) = 0) then 1%Q
  else (inject_Z (Z.of_nat (Nat.max (length a) (length b))
                  - Z.of_nat (edit_distance a b))
        / inject_Z (Z.of_nat (Nat.max (length a) (length b))))%Q.
Proof.
  unfold calculateStringSimilarity.
  destruct (decide (length b < length a)) as [Hlt|Hge].
  - rewrite levenshteinDistance_edit_distance.
    rewrite (Nat.max_l (length a) (length b)) by lia.
    by repeat case_decide.
  - rewrite levenshteinDistance_edit_distance, (edit_distance_sym b a).
    rewrite (Nat.max_r (length a) (length b)) by lia.
    by repeat case_decide.
Qed.

Lemma ratio_range (len d : Z) :
  (0 < len)%Z -> (0 <= d <= len)%Z ->
  (0 <= inject_Z (len - d) / inject_Z len <= 1)%Q.
Proof.
  intros Hlen Hd.
  assert (Hpos : (0 < inject_Z len)%Q).
  { rewrite (Zlt_Qlt 0 len) in Hlen. exact Hlen. }
  split.
  - apply Qle_shift_div_l; [exact Hpos|]. rewrite Qmult_0_l.
    change (inject_Z 0 <= inject_Z (len - d))%Q.
    rewrite <- Zle_Qle. lia.
  - apply Qle_shift_div_r; [exact Hpos|]. rewrite Qmult_1_l.
    rewrite <- Zle_Qle. lia.
Qed.

(** C7. For all strings [a] and [b] the similarity lies between 0 and 1
    and is [(max - distance) / max], where [max] is the greater of the
    two lengths and [distance] is the edit distance of [a] and [b]: the
    least cost of an edit script that inserts, deletes and substitutes
    units at 1 each, which is what [levenshteinDistance] computes.  Two
    empty strings have similarity 1, and so has every string with
    itself. *)
Theorem similarity_spec a b :
  (0 <= calculateStringSimilarity a b <= 1)%Q
  /\ calculateStringSimilarity a b =
     (if decide (Nat.max (length a) (length b) = 0) then 1%Q
      else (inject_Z (Z.of_nat (Nat.max (length a) (length b))
                      - Z.of_nat (edit_distance a b))
            / inject_Z (Z.of_nat (Nat.max (length a) (length b))))%Q)
  /\ levenshteinDistance a b = edit_distance a b
  /\ least_edit_cost a b (edit_distance a b)
  /\ calculateStringSimilarity [] [] = 1%Q
  /\ (calculateStringSimilarity a a == 1)%Q.
Proof.
  split; [|split; [|split; [|split; [|split]]]].
  - rewrite similarity_formula. case_decide; [done|].
    apply ratio_range; [lia|].
    pose proof (edit_distance_bound a b). lia.
  - apply similarity_formula.
  - apply levenshteinDistance_edit_distance.
  - apply edit_distance_least_cost.
  - reflexivity.
  - rewrite similarity_formula, edit_distance_same. case_decide; [done|].
    rewrite Z.sub_0_r. apply Qmult_inv_r.
    intros H0. unfold Qeq in H0. cbn in H0. lia.
Qed.

(** ** Two behaviours the claims leave aside *)

(** The array of a logged interaction is the array that
    [contextualMappings] holds for its query: a later click on another
    listing after the same query is pushed to it, and so counts for the
    popularity of that listing. *)
Example click_reaches_logged_interaction :
  let e := run [Search (utf16 "склад") [];
                RecordClick (utf16 "7") true] engine_after_click in
  (calculatePopularityScore (utf16 "7") engine_after_click == 0)%Q
  /\ (calculatePopularityScore (utf16 "7") e == 2)%Q
  /\ arrays e = [[utf16 "2"; utf16 "7"]].
Proof. by vm_compute. Qed.

(** Scoring throws on a listing whose type names an inherited member of
    the keyword table. *)
Example search_throws_on_inherited_type :
  (search (utf16 "офис") [office_85; constructor_listing]
          (initial sample_session)).2 = TypeError.
Proof. reflexivity. Qed.

(** * Further properties of the engine *)

(** ** What no operation writes *)

Lemma recordClick_userPreferences listingId stored e :
  userPreferences (learningData (recordClick listingId stored e)) =
  userPreferences (learningData e).
Proof.
  unfold recordClick. case_decide; [|done].
  destruct (contextualMappings (learningData e) !! currentQuery e);
    cbn; case_bool_decide; try done;
    by rewrite saveLearningData_learningData.
Qed.

Lemma recordClick_session listingId stored e :
  currentSessionId (recordClick listingId stored e) = currentSessionId e.
Proof.
  unfold recordClick. case_decide; [|done].
  destruct (contextualMappings (learningData e) !! currentQuery e);
    cbn; case_bool_decide; try done;
    by rewrite saveLearningData_session.
Qed.

Lemma step_userPreferences e op :
  userPreferences (learningData (step e op)) =
  userPreferences (learningData e).
Proof.
  destruct op as [q ls|lid st|rating now st|i st]; unfold step.
  - by rewrite search_engine.
  - apply recordClick_userPreferences.
  - unfold recordFeedback. case_decide; [|done].
    apply recordInteraction_userPreferences.
  - apply recordInteraction_userPreferences.
Qed.

Lemma step_session e op : currentSessionId (step e op) = currentSessionId e.
Proof.
  destruct op as [q ls|lid st|rating now st|i st]; unfold step.
  - by rewrite search_engine.
  - apply recordClick_session.
  - unfold recordFeedback. case_decide; [|done].
    apply recordInteraction_session.
  - apply recordInteraction_session.
Qed.

Lemma run_userPreferences ops e :
  userPreferences (learningData (run ops e)) =
  userPreferences (learningData e).
Proof.
  revert e. induction ops as [|op ops IH]; intros e; [done|].
  cbn. unfold run in IH. by rewrite IH, step_userPreferences.
Qed.

Lemma run_session ops e : currentSessionId (run ops e) = currentSessionId e.
Proof.
  revert e. induction ops as [|op ops IH]; intros e; [done|].
  cbn. unfold run in IH. by rewrite IH, step_session.
Qed.

Lemma preference_or_empty e key fallback :
  userPreferences (learningData e) = ∅ ->
  preference_or e key fallback = fallback.
Proof. intros He. unfold preference_or. by rewrite He, lookup_empty. Qed.

(** No method of the engine writes [userPreferences] or the session id.
    So in every state reached from the default one the preferences are
    empty, every lookup in them gives its fallback, the type bonus is 0,
    and a query without digits gets no price score, whatever price words
    it holds. *)
Theorem preferences_never_learned session ops :
  let e := run ops (initial session) in
  userPreferences (learningData e) = ∅
  /\ currentSessionId e = session
  /\ (forall key fallback, preference_or e key fallback = fallback)
  /\ (forall type, (calculateTypeBonus type e == 0)%Q)
  /\ (forall query price,
        match_digits query = [] ->
        (calculateAdaptivePriceScore query price e == 0)%Q).
Proof.
  cbn zeta.
  assert (He : userPreferences (learningData (run ops (initial session))) = ∅)
    by (by rewrite run_userPreferences).
  split; [exact He|]. split; [by rewrite run_session|].
  split; [intros; by apply preference_or_empty|]. split.
  - intros type. unfold calculateTypeBonus.
    rewrite preference_or_empty by done. reflexivity.
  - intros query price Hd. unfold calculateAdaptivePriceScore.
    rewrite Hd. cbn [price_of_numbers].
    destruct (find _ priceWords); [|reflexivity].
    rewrite preference_or_empty by done. reflexivity.
Qed.

Lemma preferences_never_learned_witness :
  match_digits (utf16 "офис недорого") = []
  /\ (calculateAdaptivePriceScore (utf16 "офис недорого") 90000
        (run [Search (utf16 "офис") []; RecordFeedback 5 1 true]
             (initial sample_session)) == 0)%Q.
Proof.
  assert (H : match_digits (utf16 "офис недорого") = []) by reflexivity.
  split; [exact H|].
  exact (proj2 (proj2 (proj2 (proj2
           (preferences_never_learned sample_session
              [Search (utf16 "офис") []; RecordFeedback 5 1 true]))))
           (utf16 "офис недорого") 90000%Z H).
Defined.

(** ** The store of arrays *)

Lemma recordInteraction_contextualMappings
    (i : UserInteraction (list (list N))) stored e :
  contextualMappings (learningData (recordInteraction i stored e)) =
  if decide (clickedListings i = [])
  then contextualMappings (learningData e)
  else <[toLowerCase (query i) := length (arrays e)]>
         (contextualMappings (learningData e)).
Proof.
  unfold recordInteraction, new_array. cbn zeta beta iota.
  rewrite saveLearningData_learningData.
  unfold updateWeightsBasedOnFeedback, analyzeSuccessfulQuery, deref.
  destruct i as [q t n c [rating|] sid]; cbn;
    rewrite lookup_app_r, Nat.sub_diag by lia; cbn;
    destruct c; cbn; repeat case_decide; try done; cbn in *; lia.
Qed.

Lemma store_well_formed_initial session :
  store_well_formed (initial session).
Proof. split; [|split]; [intros ? ?|constructor|intros ? ? ?]; done. Qed.

Lemma store_well_formed_recordInteraction i stored e :
  store_well_formed e -> store_well_formed (recordInteraction i stored e).
Proof.
  intros (Hm & Hl & Hinj). unfold store_well_formed.
  rewrite recordInteraction_contextualMappings, recordInteraction_arrays,
    recordInteraction_successfulQueries, length_app. cbn [length].
  split; [|split].
  - intros key r. case_decide.
    + intros H'. apply Hm in H'. lia.
    + rewrite lookup_insert. case_decide.
      * intros [= <-]. lia.
      * intros H'. apply Hm in H'. lia.
  - apply Forall_app. split.
    + eapply Forall_impl; [exact Hl|]. cbn. intros; lia.
    + constructor; [cbn; lia|constructor].
  - intros key1 key2 r. case_decide; [apply Hinj|].
    rewrite !lookup_insert. repeat case_decide; subst; try done.
    + intros [= <-] H'. apply Hm in H'. lia.
    + intros H' [= <-]. apply Hm in H'. lia.
    + apply Hinj.
Qed.

(** The three ways a click with a current query can go. *)
Lemma recordClick_known listingId stored e r :
  currentQuery e <> [] ->
  contextualMappings (learningData e) !! currentQuery e = Some r ->
  listingId ∈ deref e r ->
  recordClick listingId stored e = e.
Proof.
  intros Hq Hr Hin. unfold recordClick. rewrite decide_True, Hr by done.
  cbn zeta beta iota. by rewrite bool_decide_eq_true_2.
Qed.

Lemma recordClick_more listingId stored e r :
  currentQuery e <> [] ->
  contextualMappings (learningData e) !! currentQuery e = Some r ->
  listingId ∉ deref e r ->
  let e' := recordClick listingId stored e in
  contextualMappings (learningData e') =
    <[currentQuery e := r]> (contextualMappings (learningData e))
  /\ arrays e' = <[r := deref e r ++ [listingId]]> (arrays e)
  /\ successfulQueries (learningData e') = successfulQueries (learningData e)
  /\ currentQuery e' = currentQuery e.
Proof.
  intros Hq Hr Hin. cbn zeta.
  unfold recordClick. rewrite decide_True, Hr by done.
  cbn zeta beta iota. rewrite bool_decide_eq_false_2 by done.
  rewrite saveLearningData_learningData, saveLearningData_arrays,
    saveLearningData_currentQuery. done.
Qed.

Lemma recordClick_first listingId stored e :
  currentQuery e <> [] ->
  contextualMappings (learningData e) !! currentQuery e = None ->
  let e' := recordClick listingId stored e in
  contextualMappings (learningData e') =
    <[currentQuery e := length (arrays e)]>
      (contextualMappings (learningData e))
  /\ arrays e' = arrays e ++ [[listingId]]
  /\ successfulQueries (learningData e') = successfulQueries (learningData e)
  /\ currentQuery e' = currentQuery e.
Proof.
  intros Hq Hr. cbn zeta.
  unfold recordClick. rewrite decide_True, Hr by done.
  unfold new_array. cbn zeta beta iota.
  assert (Hd : deref (set_arrays (arrays e ++ [[]]) e) (length (arrays e)) = []).
  { unfold deref. cbn. by rewrite lookup_app_r, Nat.sub_diag by lia. }
  rewrite Hd. rewrite bool_decide_eq_false_2 by (apply not_elem_of_nil).
  rewrite saveLearningData_learningData, saveLearningData_arrays,
    saveLearningData_currentQuery.
  unfold array_push. rewrite Hd. cbn.
  split; [done|]. split; [|done].
  rewrite insert_app_r_alt by lia. by rewrite Nat.sub_diag.
Qed.

Lemma recordClick_state listingId stored e :
  store_well_formed e -> currentQuery e <> [] ->
  let e' := recordClick listingId stored e in
  store_well_formed e'
  /\ currentQuery e' = currentQuery e
  /\ clicked_after e' (currentQuery e) =
     (if bool_decide (listingId ∈ clicked_after e (currentQuery e))
      then clicked_after e (currentQuery e)
      else clicked_after e (currentQuery e) ++ [listingId])
  /\ (forall query, query <> currentQuery e ->
        clicked_after e' query = clicked_after e query).
Proof.
  intros (Hm & Hl & Hinj) Hq. cbn zeta.
  destruct (contextualMappings (learningData e) !! currentQuery e)
    as [r|] eqn:Hr.
  - destruct (decide (listingId ∈ deref e r)) as [Hin|Hin].
    + rewrite (recordClick_known _ _ _ r) by done.
      assert (Hca : clicked_after e (currentQuery e) = deref e r)
        by (unfold clicked_after; by rewrite Hr).
      rewrite Hca, bool_decide_eq_true_2 by done. done.
    + destruct (recordClick_more listingId stored e r Hq Hr Hin)
        as (Hc & Ha & Hl' & Hq').
      pose proof (Hm _ _ Hr) as Hlt.
      assert (Hca : clicked_after e (currentQuery e) = deref e r)
        by (unfold clicked_after; by rewrite Hr).
      rewrite Hca, bool_decide_eq_false_2 by done.
      unfold clicked_after, store_well_formed, deref.
      rewrite Hc, Ha, Hl', Hq', length_insert.
      rewrite lookup_insert_eq, list_lookup_insert_eq by done. cbn.
      repeat split; try done.
      * intros key r'. rewrite lookup_insert. case_decide.
        -- by intros [= <-].
        -- apply Hm.
      * intros key1 key2 r'. rewrite !lookup_insert.
        repeat case_decide; subst; try done.
        -- intros [= <-] H'. symmetry. by eapply Hinj.
        -- intros H' [= <-]. by eapply Hinj.
        -- apply Hinj.
      * intros query Hne. rewrite lookup_insert_ne by done.
        destruct (contextualMappings (learningData e) !! query)
          as [r'|] eqn:Hr'; [|done].
        rewrite list_lookup_insert_ne; [done|].
        intros ->. apply Hne. symmetry. by eapply Hinj.
  - destruct (recordClick_first listingId stored e Hq Hr)
      as (Hc & Ha & Hl' & Hq').
    assert (Hca : clicked_after e (currentQuery e) = [])
      by (unfold clicked_after; by rewrite Hr).
    rewrite Hca, bool_decide_eq_false_2 by (apply not_elem_of_nil).
    unfold clicked_after, store_well_formed, deref.
    rewrite Hc, Ha, Hl', Hq', length_app. cbn [length].
    rewrite lookup_insert_eq, lookup_app_r, Nat.sub_diag by lia. cbn.
    repeat split; try done.
    * intros key r'. rewrite lookup_insert. case_decide.
      -- intros [= <-]. lia.
      -- intros H'. apply Hm in H'. lia.
    * eapply Forall_impl; [exact Hl|]. cbn. intros; lia.
    * intros key1 key2 r'. rewrite !lookup_insert.
      repeat case_decide; subst; try done.
      -- intros [= <-] H'. apply Hm in H'. lia.
      -- intros H' [= <-]. apply Hm in H'. lia.
      -- apply Hinj.
    * intros query Hne. rewrite lookup_insert_ne by done.
      destruct (contextualMappings (learningData e) !! query)
        as [r'|] eqn:Hr'; [|done].
      pose proof (Hm _ _ Hr'). by rewrite lookup_app_l by lia.
Qed.

Lemma store_well_formed_step e op :
  store_well_formed e -> store_well_formed (step e op).
Proof.
  intros He. destruct op as [q ls|lid st|rating now st|i st]; unfold step.
  - by rewrite search_engine.
  - destruct (decide (currentQuery e = [])) as [Hq|Hq].
    + unfold recordClick. by rewrite decide_False by tauto.
    + by apply recordClick_state.
  - unfold recordFeedback. case_decide; [|done].
    by apply store_well_formed_recordInteraction.
  - by apply store_well_formed_recordInteraction.
Qed.

Lemma store_well_formed_run ops e :
  store_well_formed e -> store_well_formed (run ops e).
Proof.
  revert e. induction ops as [|op ops IH]; intros e He; [done|].
  apply IH, store_well_formed_step, He.
Qed.

(** ** Clicks *)

(** In every state reached from the default one in which a current query
    is set, [recordClick(id)] leaves [id] among the listings clicked
    after the current query, only ever appends to that list, keeps it
    free of duplicates if it was, leaves the lists of all other queries
    alone, and does nothing when repeated. *)
Theorem click_recorded_once session ops listingId stored :
  let e := run ops (initial session) in
  currentQuery e <> [] ->
  let e' := recordClick listingId stored e in
  listingId ∈ clicked_after e' (currentQuery e)
  /\ clicked_after e (currentQuery e) `prefix_of`
       clicked_after e' (currentQuery e)
  /\ (NoDup (clicked_after e (currentQuery e)) ->
      NoDup (clicked_after e' (currentQuery e)))
  /\ (forall query, query <> currentQuery e ->
        clicked_after e' query = clicked_after e query)
  /\ (forall stored', recordClick listingId stored' e' = e').
Proof.
  intros e Hq e'.
  assert (Hwf : store_well_formed e)
    by apply store_well_formed_run, store_well_formed_initial.
  destruct (recordClick_state listingId stored e Hwf Hq)
    as (Hwf' & Hq' & Hc & Hother).
  fold e' in Hwf', Hq', Hc, Hother.
  assert (Hin : listingId ∈ clicked_after e' (currentQuery e)).
  { rewrite Hc. case_bool_decide; [done|].
    apply elem_of_app. right. by apply list_elem_of_singleton. }
  split; [exact Hin|]. split; [|split; [|split]].
  - rewrite Hc. case_bool_decide; [done|]. by apply prefix_app_r.
  - intros Hnd. rewrite Hc. case_bool_decide as Hold; [done|].
    apply NoDup_app. split; [done|]. split.
    + intros x Hx Hx'. apply list_elem_of_singleton in Hx'. by subst.
    + apply NoDup_singleton.
  - exact Hother.
  - intros stored'. unfold clicked_after in Hin. rewrite <- Hq' in Hin.
    destruct (contextualMappings (learningData e') !! currentQuery e')
      as [r|] eqn:Hr.
    + apply (recordClick_known _ _ _ r); [by rewrite Hq'|done|done].
    + by apply not_elem_of_nil in Hin.
Qed.

Lemma click_recorded_once_witness :
  currentQuery engine_after_search <> []
  /\ utf16 "42"
     ∈ clicked_after (recordClick (utf16 "42") true engine_after_search)
                     (currentQuery engine_after_search).
Proof.
  assert (Hq : currentQuery engine_after_search <> [])
    by (vm_compute; discriminate).
  split; [exact Hq|].
  exact (proj1 (click_recorded_once sample_session
                  [Search (utf16 "офис") []] (utf16 "42") true Hq)).
Defined.

(** ** The score and the matched features *)

Lemma calculateAdaptiveScore_terms query l e :
  calculateAdaptiveScore query l e =
  result_bind (getLearnedTypeKeywords (type l) e) (fun typeKeywords =>
    Ok (add_features (score_terms query l e typeKeywords) (0%Q, []))).
Proof. reflexivity. Qed.

Lemma add_features_names terms acc :
  (add_features terms acc).2 =
  acc.2 ++ map (fun t => utf16 t.2) (List.filter (fun t => t.1.1) terms).
Proof.
  revert acc. induction terms as [|[[hit amount] name] terms IH];
    intros acc; cbn.
  - by rewrite app_nil_r.
  - unfold add_features in IH. rewrite IH. unfold add_feature.
    destruct hit; cbn; [|done]. by rewrite <- app_assoc.
Qed.

Lemma add_features_sign terms acc :
  Forall (fun t => t.1.1 = true -> (0 < t.1.2)%Q) terms ->
  (0 <= acc.1)%Q -> ((0 < acc.1)%Q <-> acc.2 <> []) ->
  (0 <= (add_features terms acc).1)%Q
  /\ ((0 < (add_features terms acc).1)%Q <-> (add_features terms acc).2 <> []).
Proof.
  intros Hterms. revert acc.
  induction Hterms as [|[[hit amount] name] terms Ht _ IH];
    intros acc H0 Hiff; [done|].
  cbn. apply IH; unfold add_feature; destruct hit; cbn in *; try done.
  - specialize (Ht eq_refl). lra.
  - specialize (Ht eq_refl). split; [intros _|intros _; lra].
    by destruct (acc.2).
Qed.

Lemma weight_or_positive e feature fallback :
  weights_in_range e -> (0 < fallback)%Z ->
  (0 < weight_or e feature fallback)%Z.
Proof.
  intros He Hf. unfold weight_or.
  destruct (featureWeights (learningData e) !! utf16 feature) as [w|] eqn:Hw;
    [|done].
  case_decide; [done|]. apply He in Hw. cbn in Hw. lia.
Qed.

Lemma scaled_positive (s : Q) (w d : Z) :
  (0 < s)%Q -> (0 < w)%Z -> (0 < d)%Z ->
  (0 < s * inject_Z w / inject_Z d)%Q.
Proof.
  intros Hs Hw Hd. apply Qlt_shift_div_l.
  - by rewrite (Zlt_Qlt 0 d) in Hd.
  - rewrite Qmult_0_l. apply Qmult_lt_0_compat; [done|].
    by rewrite (Zlt_Qlt 0 w) in Hw.
Qed.

Lemma score_terms_positive query l e typeKeywords :
  weights_in_range e ->
  Forall (fun t => t.1.1 = true -> (0 < t.1.2)%Q)
         (score_terms query l e typeKeywords).
Proof.
  intros He. unfold score_terms. cbn zeta.
  repeat constructor; cbn [fst snd].
  - intros _. change 0%Q with (inject_Z 0). rewrite <- Zlt_Qlt.
    by apply weight_or_positive.
  - intros _. change 0%Q with (inject_Z 0). rewrite <- Zlt_Qlt.
    by apply weight_or_positive.
  - intros Hs. apply Z.ltb_lt in Hs.
    apply (scaled_positive _ _ 30); [|by apply weight_or_positive|done].
    change 0%Q with (inject_Z 0). by rewrite <- Zlt_Qlt.
  - intros Hs. apply Q_gtb_lt in Hs.
    apply (scaled_positive _ _ 30); [done|by apply weight_or_positive|done].
  - intros Hs. apply Q_gtb_lt in Hs.
    apply (scaled_positive _ _ 25); [done|by apply weight_or_positive|done].
  - intros Hs. by apply Q_gtb_lt in Hs.
  - intros Hs. by apply Q_gtb_lt in Hs.
Qed.

Lemma matched_sublist terms :
  map (fun t : bool * Q * string => utf16 t.2) (List.filter (fun t => t.1.1) terms)
  `sublist_of` map (fun t => utf16 t.2) terms.
Proof.
  induction terms as [|[[hit amount] name] terms IH]; cbn; [done|].
  destruct hit; cbn; by constructor.
Qed.

Lemma calculateAdaptiveScore_sign query l e s m :
  weights_in_range e ->
  calculateAdaptiveScore query l e = Ok (s, m) ->
  (0 <= s)%Q
  /\ ((0 < s)%Q <-> m <> [])
  /\ m `sublist_of` feature_names.
Proof.
  intros He. rewrite calculateAdaptiveScore_terms.
  destruct (getLearnedTypeKeywords (type l) e) as [kw|]; [|done].
  cbn [result_bind]. intros Heq.
  assert (Hs : add_features (score_terms query l e kw) (0%Q, []) = (s, m))
    by (injection Heq as Heq; exact Heq).
  clear Heq.
  pose proof (add_features_sign (score_terms query l e kw) (0%Q, [])
                (score_terms_positive query l e kw He)) as Hsign.
  pose proof (add_features_names (score_terms query l e kw) (0%Q, [])) as Hn.
  rewrite Hs in Hsign, Hn. cbn [fst snd app] in Hsign, Hn.
  destruct Hsign as [H0 Hiff]; [apply Qle_refl|split; [intros H; by apply Qlt_irrefl in H|done]|].
  split; [done|]. split; [done|].
  rewrite Hn. apply (matched_sublist (score_terms query l e kw)).
Qed.

(** When every weight is within 5 and 150 (as in every state the engine
    reaches), the score [calculateAdaptiveScore] returns is never
    negative, it is above 0 exactly when at least one feature matched,
    and the matched names come in the fixed order exact, type, size,
    price, feature, context, semantic, each at most once. *)
Theorem score_positive_iff_matched query l e s m :
  weights_in_range e ->
  calculateAdaptiveScore query l e = Ok (s, m) ->
  (0 <= s)%Q
  /\ ((0 < s)%Q <-> m <> [])
  /\ m `sublist_of` feature_names.
Proof. apply calculateAdaptiveScore_sign. Qed.

Lemma score_positive_iff_matched_witness :
  weights_in_range (initial sample_session)
  /\ exists s m,
       calculateAdaptiveScore (utf16 "80") office_85 (initial sample_session)
       = Ok (s, m)
       /\ (0 <= s)%Q /\ ((0 < s)%Q <-> m <> []).
Proof.
  assert (H : weights_in_range (initial sample_session))
    by apply weights_in_range_initial.
  split; [exact H|]. eexists. eexists.
  assert (Hs : calculateAdaptiveScore (utf16 "80") office_85
                 (initial sample_session)
               = Ok ((1200 # 30)%Q, [utf16 "size_match"]))
    by (vm_compute; reflexivity).
  split; [exact Hs|].
  destruct (score_positive_iff_matched _ _ _ _ _ H Hs) as (H0 & Hiff & _).
  split; [exact H0|exact Hiff].
Defined.

(** ** What a search returns *)

Lemma calculateAdaptiveScore_throws query l e :
  calculateAdaptiveScore query l e = TypeError <-> ~ scorable l.
Proof.
  split.
  - intros Ht Hs.
    destruct (calculateAdaptiveScore_returns query l e Hs) as [r Hr].
    congruence.
  - intros Hs. unfold scorable in Hs.
    assert (Hc : toLowerCase (type l) = utf16 "constructor"
                 \/ toLowerCase (type l) = utf16 "__proto__").
    { destruct (decide (toLowerCase (type l) = utf16 "constructor"));
        [by left|].
      destruct (decide (toLowerCase (type l) = utf16 "__proto__"));
        [by right|tauto]. }
    unfold calculateAdaptiveScore, getLearnedTypeKeywords.
    destruct Hc as [-> | ->]; reflexivity.
Qed.

Lemma result_map_throws {A B} (f : A -> result B) l :
  result_map f l = TypeError <-> Exists (fun x => f x = TypeError) l.
Proof.
  induction l as [|x l IH]; cbn.
  - split; [done|]. by intros H%Exists_nil.
  - rewrite Exists_cons. destruct (f x) as [y|]; cbn.
    + destruct (result_map f l) as [ys|]; cbn.
      * split; [done|]. intros [H|H]; [done|]. by apply IH in H.
      * split; [intros _; right; by apply IH|done].
    + split; [by left|done].
Qed.

(** [search] throws exactly when the query is not empty once normalised
    and the type of some listing, in lower case, is [constructor] or
    [__proto__]; an empty query never throws, whatever the listings. *)
Theorem search_throws_iff query listings e :
  (search query listings e).2 = TypeError
  <-> trim (toLowerCase query) <> []
      /\ Exists (fun l => ~ scorable l) listings.
Proof.
  unfold search. case_decide as Hq; cbn [snd].
  - split; [done|]. tauto.
  - set (f := fun listing => result_bind _ _).
    destruct (result_map f listings) as [scoredListings|] eqn:Hmap; cbn.
    + split; [done|]. intros [_ Hex].
      assert (Ht : result_map f listings = TypeError).
      { apply result_map_throws. eapply Exists_impl; [exact Hex|].
        intros l Hl. unfold f.
        apply (calculateAdaptiveScore_throws (trim (toLowerCase query)) l
                 (set_currentQuery query e)) in Hl.
        by rewrite Hl. }
      congruence.
    + split; [|done]. intros _. split; [done|].
      apply result_map_throws in Hmap.
      eapply Exists_impl; [exact Hmap|].
      intros l Hl. unfold f in Hl.
      apply (calculateAdaptiveScore_throws (trim (toLowerCase query)) l
               (set_currentQuery query e)).
      by destruct (calculateAdaptiveScore _ l _).
Qed.

Lemma relevance_matched e query l :
  scorable l ->
  calculateAdaptiveScore query l e
  = Ok (relevance e query l, matched e query l).
Proof.
  intros Hs. unfold relevance, matched.
  destruct (calculateAdaptiveScore_returns query l e Hs) as [[s m] Hr].
  by rewrite Hr.
Qed.


Lemma similarity_same a : (calculateStringSimilarity a a == 1)%Q.
Proof.
  rewrite similarity_formula, edit_distance_same. case_decide; [done|].
  rewrite Z.sub_0_r. apply Qmult_inv_r.
  intros H0. unfold Qeq in H0. cbn in H0. lia.
Qed.





(** A click after a query typed in capitals is filed under the capitals;
    the search compares the lower-cased query with that key, finds them
    too different, and the click earns the listing nothing. *)
Example click_after_capitals_unused :
  calculateContextualScore (trim (toLowerCase (utf16 "ОФИС"))) office_85
    (run [Search (utf16 "ОФИС") []; RecordClick (utf16 "2") true]
         (initial sample_session)) = 0%Q.
Proof. by vm_compute. Qed.

(** ** The distance as a metric *)

Lemma edit_zero s t : edit s t 0 -> s = t.
Proof.
  intros H. remember 0 as n eqn:Hn.
  induction H; try discriminate; [done|]. f_equal. by apply IHedit.
Qed.

Lemma edit_same s : edit s s 0.
Proof. induction s; by constructor. Qed.

Lemma edit_lengths s t n :
  edit s t n -> length s <= length t + n /\ length t <= length s + n.
Proof. induction 1; cbn; lia. Qed.

(** Scripts compose: editing [s] into [t] and [t] into [u] is one way of
    editing [s] into [u]. *)
Lemma edit_compose s t n :
  edit s t n ->
  forall u m, edit t u m -> exists k, k <= n + m /\ edit s u k.
Proof.
  induction 1 as [|c s t n H1 IH|c d s t n H1 IH|c s t n H1 IH|d s t n H1 IH].
  - intros u m H2. exists m. split; [lia|done].
  - intros u m H2. remember (c :: t) as t0 eqn:Ht. revert Ht.
    induction H2 as [|c' t' u m H2 _|c' d' t' u m H2 _|c' t' u m H2 _
                     |d' t' u m H2 IH2]; intros Ht.
    + discriminate.
    + injection Ht as -> ->. destruct (IH _ _ H2) as (k & Hk & He).
      exists k. split; [lia|by constructor].
    + injection Ht as -> ->. destruct (IH _ _ H2) as (k & Hk & He).
      exists (S k). split; [lia|by constructor].
    + injection Ht as -> ->. destruct (IH _ _ H2) as (k & Hk & He).
      exists (S k). split; [lia|by constructor].
    + destruct (IH2 Ht) as (k & Hk & He).
      exists (S k). split; [lia|by constructor].
  - intros u m H2. remember (d :: t) as t0 eqn:Ht. revert Ht.
    induction H2 as [|c' t' u m H2 _|c' d' t' u m H2 _|c' t' u m H2 _
                     |d' t' u m H2 IH2]; intros Ht.
    + discriminate.
    + injection Ht as -> ->. destruct (IH _ _ H2) as (k & Hk & He).
      exists (S k). split; [lia|by constructor].
    + injection Ht as -> ->. destruct (IH _ _ H2) as (k & Hk & He).
      exists (S k). split; [lia|by constructor].
    + injection Ht as -> ->. destruct (IH _ _ H2) as (k & Hk & He).
      exists (S k). split; [lia|by constructor].
    + destruct (IH2 Ht) as (k & Hk & He).
      exists (S k). split; [lia|by constructor].
  - intros u m H2. destruct (IH _ _ H2) as (k & Hk & He).
    exists (S k). split; [lia|by constructor].
  - intros u m H2. remember (d :: t) as t0 eqn:Ht. revert Ht.
    induction H2 as [|c' t' u m H2 _|c' d' t' u m H2 _|c' t' u m H2 _
                     |d' t' u m H2 IH2]; intros Ht.
    + discriminate.
    + injection Ht as -> ->. destruct (IH _ _ H2) as (k & Hk & He).
      exists (S k). split; [lia|by constructor].
    + injection Ht as -> ->. destruct (IH _ _ H2) as (k & Hk & He).
      exists (S k). split; [lia|by constructor].
    + injection Ht as -> ->. destruct (IH _ _ H2) as (k & Hk & He).
      exists k. split; [lia|done].
    + destruct (IH2 Ht) as (k & Hk & He).
      exists (S k). split; [lia|by constructor].
Qed.

(** [levenshteinDistance] is a metric on strings: it is 0 exactly for
    equal strings, symmetric, and obeys the triangle inequality; and it
    lies between the difference of the two lengths and the greater of
    them. *)
Theorem levenshtein_metric a b c :
  (levenshteinDistance a b = 0 <-> a = b)
  /\ levenshteinDistance a b = levenshteinDistance b a
  /\ levenshteinDistance a c <= levenshteinDistance a b + levenshteinDistance b c
  /\ Nat.max (length a) (length b) - Nat.min (length a) (length b)
     <= levenshteinDistance a b
  /\ levenshteinDistance a b <= Nat.max (length a) (length b).
Proof.
  rewrite !levenshteinDistance_edit_distance.
  split; [|split; [|split; [|split]]].
  - split.
    + intros H0. apply edit_zero. rewrite <- H0. apply edit_distance_sound.
    + intros ->. apply edit_distance_same.
  - apply edit_distance_sym.
  - destruct (edit_compose _ _ _ (edit_distance_sound a b) _ _
                (edit_distance_sound b c)) as (k & Hk & He).
    apply edit_distance_least in He. lia.
  - pose proof (edit_lengths _ _ _ (edit_distance_sound a b)). lia.
  - apply edit_distance_bound.
Qed.

Lemma ratio_le (len x y : Z) :
  (0 < len)%Z -> (x <= y)%Z ->
  (inject_Z x / inject_Z len <= inject_Z y / inject_Z len)%Q.
Proof.
  intros Hlen Hxy. unfold Qdiv. apply Qmult_le_compat_r.
  - by rewrite <- Zle_Qle.
  - apply Qinv_le_0_compat. change 0%Q with (inject_Z 0).
    rewrite <- Zle_Qle. lia.
Qed.

(** [calculateStringSimilarity] is symmetric, is 1 exactly for equal
    strings, and is at most the ratio of the shorter length to the
    longer; so two strings of which one is at most 70% as long as the
    other are never similar enough (above 0.7) for the contextual
    score. *)
Theorem similarity_properties a b :
  calculateStringSimilarity a b = calculateStringSimilarity b a
  /\ ((calculateStringSimilarity a b == 1)%Q <-> a = b)
  /\ (0 < Nat.max (length a) (length b) ->
      (calculateStringSimilarity a b
       <= inject_Z (Z.of_nat (Nat.min (length a) (length b)))
          / inject_Z (Z.of_nat (Nat.max (length a) (length b))))%Q)
  /\ (0 < Nat.max (length a) (length b) ->
      10 * Nat.min (length a) (length b)
      <= 7 * Nat.max (length a) (length b) ->
      Q_gtb (calculateStringSimilarity a b) (7 # 10) = false).
Proof.
  assert (Hle : 0 < Nat.max (length a) (length b) ->
      (calculateStringSimilarity a b
       <= inject_Z (Z.of_nat (Nat.min (length a) (length b)))
          / inject_Z (Z.of_nat (Nat.max (length a) (length b))))%Q).
  { intros Hmax. rewrite similarity_formula. rewrite decide_False by lia.
    apply ratio_le; [lia|].
    pose proof (edit_lengths _ _ _ (edit_distance_sound a b)). lia. }
  split; [|split; [|split]].
  - rewrite !similarity_formula, (Nat.max_comm (length b)),
      (edit_distance_sym b a). done.
  - split.
    + rewrite similarity_formula. case_decide as Hmax.
      * intros _. destruct a, b; cbn in Hmax; try lia. done.
      * intros H1. apply edit_zero.
        assert (Hd : edit_distance a b = 0); [|rewrite <- Hd; apply edit_distance_sound].
        set (len := Z.of_nat (Nat.max (length a) (length b))) in *.
        assert (Hlen : ~ (inject_Z len == 0)%Q).
        { change 0%Q with (inject_Z 0). rewrite inject_Z_injective. lia. }
        pose proof (Qmult_div_r (inject_Z (len - Z.of_nat (edit_distance a b)))
                      (inject_Z len) Hlen) as Hx.
        rewrite H1, Qmult_1_r in Hx. rewrite inject_Z_injective in Hx. lia.
    + intros ->. apply similarity_same.
  - exact Hle.
  - intros Hmax Hlen. destruct (Q_gtb _ _) eqn:Hg; [|done].
    apply Q_gtb_lt in Hg. specialize (Hle Hmax).
    assert (Hr : (inject_Z (Z.of_nat (Nat.min (length a) (length b)))
                  / inject_Z (Z.of_nat (Nat.max (length a) (length b)))
                  <= 7 # 10)%Q).
    { apply Qle_shift_div_r.
      - change 0%Q with (inject_Z 0). rewrite <- Zlt_Qlt. lia.
      - unfold Qle, Qmult, inject_Z. cbn. lia. }
    lra.
Qed.

Lemma similarity_properties_witness :
  0 < Nat.max (length (utf16 "офис")) (length (utf16 "офис в центре"))
  /\ 10 * Nat.min (length (utf16 "офис")) (length (utf16 "офис в центре"))
     <= 7 * Nat.max (length (utf16 "офис")) (length (utf16 "офис в центре"))
  /\ Q_gtb (calculateStringSimilarity (utf16 "офис") (utf16 "офис в центре"))
           (7 # 10) = false.
Proof.
  assert (H1 : 0 < Nat.max (length (utf16 "офис"))
                           (length (utf16 "офис в центре")))
    by (vm_compute; lia).
  assert (H2 : 10 * Nat.min (length (utf16 "офис"))
                            (length (utf16 "офис в центре"))
               <= 7 * Nat.max (length (utf16 "офис"))
                              (length (utf16 "офис в центре")))
    by (vm_compute; lia).
  split; [exact H1|]. split; [exact H2|].
  exact (proj2 (proj2 (proj2
           (similarity_properties (utf16 "офис") (utf16 "офис в центре"))))
           H1 H2).
Defined.

(** ** Counting the words of successful queries *)

Lemma recordInteraction_queryPatterns
    (i : UserInteraction (list (list N))) stored e :
  queryPatterns (learningData (recordInteraction i stored e)) =
  if decide (clickedListings i = [])
  then queryPatterns (learningData e)
  else foldl (fun m word =>
                let current :=
                  match m !! word with Some n => n | None => 0%Z end in
                <[word := (current + 1)%Z]> m)
             (queryPatterns (learningData e)) (mined_words (query i)).
Proof.
  unfold recordInteraction, new_array. cbn zeta beta iota.
  rewrite saveLearningData_learningData.
  unfold updateWeightsBasedOnFeedback, analyzeSuccessfulQuery, deref.
  destruct i as [q t n c [rating|] sid]; cbn;
    rewrite lookup_app_r, Nat.sub_diag by lia; cbn;
    destruct c; cbn; repeat case_decide; try done; cbn in *; lia.
Qed.

Lemma count_words_lookup (words : list (list N)) (m : gmap (list N) Z) word :
  match foldl (fun m word =>
                 let current :=
                   match m !! word with Some n => n | None => 0%Z end in
                 <[word := (current + 1)%Z]> m) m words !! word with
  | Some n => n
  | None => 0%Z
  end
  = (match m !! word with Some n => n | None => 0%Z end
     + occurrences word words)%Z
  /\ (occurrences word words = 0%Z ->
      foldl (fun m word =>
               let current :=
                 match m !! word with Some n => n | None => 0%Z end in
               <[word := (current + 1)%Z]> m) m words !! word
      = m !! word).
Proof.
  revert m. induction words as [|w words IH]; intros m.
  - unfold occurrences. cbn. split; [lia|done].
  - cbn [foldl]. destruct (IH (<[w:=(match m !! w with
                                       | Some n => n
                                       | None => 0
                                       end + 1)%Z]> m)) as [IH1 IH2].
    unfold occurrences in *. cbn [List.filter].
    rewrite IH1. rewrite lookup_insert.
    destruct (decide (w = word)) as [->|Hne].
    + rewrite bool_decide_eq_true_2 by done. cbn [length].
      split; [lia|lia].
    + rewrite bool_decide_eq_false_2 by done. split; [done|].
      intros H0. rewrite IH2 by done. by rewrite lookup_insert_ne.
Qed.

Lemma patterns_counted_lemma (i : UserInteraction (list (list N))) stored e word :
  let e' := recordInteraction i stored e in
  (clickedListings i <> [] ->
   pattern_count e' word
   = (pattern_count e word + occurrences word (mined_words (query i)))%Z)
  /\ (clickedListings i = [] \/ occurrences word (mined_words (query i)) = 0%Z ->
      queryPatterns (learningData e') !! word
      = queryPatterns (learningData e) !! word).
Proof.
  cbn zeta. unfold pattern_count. rewrite recordInteraction_queryPatterns.
  destruct (count_words_lookup (mined_words (query i))
              (queryPatterns (learningData e)) word) as [H1 H2].
  split.
  - intros Hc. by rewrite decide_False.
  - intros [Hc|H0]; case_decide; try done. by apply H2.
Qed.



Lemma count_words_positive (words : list (list N)) (m : gmap (list N) Z) :
  (forall k n, m !! k = Some n -> (1 <= n)%Z) ->
  forall k n,
    foldl (fun m word =>
             let current :=
               match m !! word with Some n => n | None => 0%Z end in
             <[word := (current + 1)%Z]> m) m words !! k = Some n ->
    (1 <= n)%Z.
Proof.
  revert m. induction words as [|w words IH]; intros m Hm; [exact Hm|].
  cbn [foldl]. apply IH. intros k n. rewrite lookup_insert. case_decide.
  - intros [= <-]. destruct (m !! w) as [c|] eqn:Hc; [|lia].
    apply Hm in Hc. lia.
  - apply Hm.
Qed.

Lemma count_words_keeps (words : list (list N)) (m : gmap (list N) Z) k :
  is_Some (m !! k) ->
  is_Some (foldl (fun m word =>
                    let current :=
                      match m !! word with Some n => n | None => 0%Z end in
                    <[word := (current + 1)%Z]> m) m words !! k).
Proof.
  revert m. induction words as [|w words IH]; intros m Hm; [exact Hm|].
  cbn [foldl]. apply IH. rewrite lookup_insert. by case_decide.
Qed.

Lemma occurrences_nonneg word words : (0 <= occurrences word words)%Z.
Proof. unfold occurrences. lia. Qed.

Lemma step_pattern_count e op word :
  (pattern_count e word <= pattern_count (step e op) word)%Z
  /\ (is_Some (queryPatterns (learningData e) !! word) ->
      is_Some (queryPatterns (learningData (step e op)) !! word)).
Proof.
  assert (Hrec : forall i stored,
    (pattern_count e word <= pattern_count (recordInteraction i stored e) word)%Z
    /\ (is_Some (queryPatterns (learningData e) !! word) ->
        is_Some (queryPatterns (learningData (recordInteraction i stored e))
                   !! word))).
  { intros i stored.
    destruct (patterns_counted_lemma i stored e word) as [H1 H2].
    pose proof (occurrences_nonneg word (mined_words (query i))) as H0.
    destruct (decide (clickedListings i = [])) as [Hc|Hc].
    - unfold pattern_count. rewrite H2 by (by left). done.
    - specialize (H1 Hc). split; [lia|].
      rewrite recordInteraction_queryPatterns, decide_False by done.
      apply count_words_keeps. }
  destruct op as [q ls|lid st|rating now st|i st]; unfold step.
  - rewrite search_engine. done.
  - unfold pattern_count. rewrite recordClick_queryPatterns. done.
  - unfold recordFeedback. case_decide; [apply Hrec|done].
  - apply Hrec.
Qed.

Lemma pattern_positive_step e op :
  (forall word n,
     queryPatterns (learningData e) !! word = Some n -> (1 <= n)%Z) ->
  forall word n,
    queryPatterns (learningData (step e op)) !! word = Some n -> (1 <= n)%Z.
Proof.
  intros He.
  assert (Hrec : forall i stored word n,
    queryPatterns (learningData (recordInteraction i stored e)) !! word
    = Some n -> (1 <= n)%Z).
  { intros i stored word n. rewrite recordInteraction_queryPatterns.
    case_decide; [apply He|]. by apply count_words_positive. }
  destruct op as [q ls|lid st|rating now st|i st]; unfold step.
  - by rewrite search_engine.
  - by rewrite recordClick_queryPatterns.
  - unfold recordFeedback. case_decide; [apply Hrec|done].
  - apply Hrec.
Qed.

(** Word counts only grow: in every state reached from the default one
    each counted word has a count of at least 1, and no operation lowers
    a count or drops a word. *)
Theorem patterns_only_grow session ops op word :
  let e := run ops (initial session) in
  (forall n, queryPatterns (learningData e) !! word = Some n -> (1 <= n)%Z)
  /\ (pattern_count e word <= pattern_count (step e op) word)%Z
  /\ (is_Some (queryPatterns (learningData e) !! word) ->
      is_Some (queryPatterns (learningData (step e op)) !! word)).
Proof.
  cbn zeta. split; [|apply step_pattern_count].
  assert (H : forall e0,
    (forall word n,
       queryPatterns (learningData e0) !! word = Some n -> (1 <= n)%Z) ->
    forall word n,
      queryPatterns (learningData (run ops e0)) !! word = Some n ->
      (1 <= n)%Z).
  { induction ops as [|op' ops' IH]; intros e0 H0; [exact H0|].
    cbn. apply IH. by apply pattern_positive_step. }
  apply H. intros w n. done.
Qed.

(** A word that was counted more than five times and contains the first
    four units of a listing's lower-cased type has become a keyword of
    that type: every query that contains the word earns the listing
    [type_match]. *)
Theorem learned_keyword_matches e query l word n :
  scorable l ->
  queryPatterns (learningData e) !! word = Some n -> (5 < n)%Z ->
  includes word (take 4 (toLowerCase (type l))) = true ->
  includes query word = true ->
  utf16 "type_match" ∈ matched e query l.
Proof.
  intros Hsc Hw Hn Hprefix Hq.
  pose proof (relevance_matched e query l Hsc) as Hscore.
  rewrite calculateAdaptiveScore_terms in Hscore.
  destruct (getLearnedTypeKeywords (type l) e) as [kw|] eqn:Hkw; [|done].
  cbn [result_bind] in Hscore.
  assert (Hnames : matched e query l =
                   (add_features (score_terms query l e kw) (0%Q, [])).2)
    by exact (eq_sym (f_equal (fun r : result (Q * list (list N)) =>
                                 match r with
                                 | Ok x => x.2
                                 | TypeError => []
                                 end) Hscore)).
  assert (Hin : In word kw).
  { unfold getLearnedTypeKeywords in Hkw.
    destruct (baseKeywords (toLowerCase (type l))) as [base|]; [|done].
    cbn [result_bind] in Hkw. injection Hkw as <-.
    apply in_or_app. right. apply in_map_iff. exists (word, n).
    split; [done|]. apply filter_In. split.
    - apply list_elem_of_In, elem_of_map_to_list, Hw.
    - cbn. rewrite Hprefix, andb_true_r. by apply Z.ltb_lt. }
  rewrite Hnames, add_features_names. cbn [snd app].
  apply list_elem_of_In, in_map_iff.
  exists (existsb (fun keyword => includes query keyword) kw,
          inject_Z (weight_or e "type_match" 50), "type_match"%string).
  split; [done|]. apply filter_In. split.
  - unfold score_terms. cbn zeta. right. by left.
  - cbn. apply existsb_exists. by exists word.
Qed.

Lemma patterns_only_grow_witness :
  queryPatterns (learningData engine_after_click) !! utf16 "склад"
    = Some 1%Z
  /\ (1 <= 1)%Z.
Proof.
  assert (H : queryPatterns (learningData engine_after_click)
                !! utf16 "склад" = Some 1%Z) by (vm_compute; reflexivity).
  split; [exact H|].
  exact (proj1 (patterns_only_grow sample_session
                  [RecordInteraction
                     {| query := utf16 "склад"; timestamp := 0;
                        resultsCount := 2;
                        clickedListings := [utf16 "2"];
                        feedbackRating := None;
                        sessionId := sample_session |} true]
                  (Search [] []) (utf16 "склад")) 1%Z H).
Defined.

Lemma learned_keyword_matches_witness :
  scorable shop_80
  /\ queryPatterns (learningData engine_after_six_clicks)
       !! utf16 "магазины" = Some 6%Z
  /\ utf16 "type_match"
     ∈ matched engine_after_six_clicks (utf16 "ищу магазины") shop_80.
Proof.
  assert (Hs : scorable shop_80) by (split; vm_compute; discriminate).
  assert (Hw : queryPatterns (learningData engine_after_six_clicks)
                 !! utf16 "магазины" = Some 6%Z)
    by (vm_compute; reflexivity).
  split; [exact Hs|]. split; [exact Hw|].
  apply (learned_keyword_matches engine_after_six_clicks
           (utf16 "ищу магазины") shop_80 (utf16 "магазины") 6%Z Hs Hw).
  - reflexivity.
  - reflexivity.
  - reflexivity.
Defined.

(** ** Ratings in a row *)






(** ** Ranges of the scores *)

Lemma size_of_numbers_values numbers area s :
  size_of_numbers numbers area = Some s -> s = 40%Z \/ s = 20%Z \/ s = 10%Z.
Proof.
  induction numbers as [|numStr rest IH]; cbn; [done|].
  repeat case_match; try done; intros [= <-]; auto.
Qed.

Lemma size_of_words_values sizes query area :
  size_of_words sizes query area = 0%Z \/ size_of_words sizes query area = 30%Z.
Proof.
  induction sizes as [|[sizeWord [min max]] rest IH]; cbn; [by left|].
  case_match; [by right|done].
Qed.

Lemma size_score_values query area :
  In (calculateAdaptiveSizeScore query area) [0; 10; 20; 30; 40]%Z.
Proof.
  unfold calculateAdaptiveSizeScore.
  destruct (size_of_numbers _ _) as [s|] eqn:Hs.
  - apply size_of_numbers_values in Hs as [-> | [-> | ->]]; cbn; tauto.
  - destruct (size_of_words_values getLearnedSizePreferences query area)
      as [-> | ->]; cbn; tauto.
Qed.

Lemma price_of_numbers_values numbers price s :
  price_of_numbers numbers price = Some s ->
  s = 40%Q \/ s = 20%Q \/ s = 10%Q.
Proof.
  induction numbers as [|numStr rest IH]; cbn; [done|].
  repeat case_match; try done; intros [= <-]; auto.
Qed.

Lemma price_score_range query price e :
  userPreferences (learningData e) = ∅ ->
  (0 <= calculateAdaptivePriceScore query price e <= 40)%Q.
Proof.
  intros He. unfold calculateAdaptivePriceScore.
  destruct (price_of_numbers _ _) as [s|] eqn:Hs.
  - apply price_of_numbers_values in Hs as [-> | [-> | ->]]; split; by vm_compute.
  - destruct (find _ priceWords); [|split; by vm_compute].
    rewrite preference_or_empty by done. split; by vm_compute.
Qed.

Lemma feature_fold_range e query (features : list (list (list N) * bool))
    (acc : Q) :
  userPreferences (learningData e) = ∅ ->
  (acc <= foldl (fun score feature =>
           if existsb (fun keyword => includes query keyword) feature.1
              && feature.2
           then
             let featureName := hd [] feature.1 in
             let learnedWeight :=
               preference_or e (utf16 "feature_" ++ featureName) 1 in
             (score + 25 * learnedWeight)%Q
           else score) acc features
   <= acc + 25 * inject_Z (Z.of_nat (length features)))%Q.
Proof.
  intros He. revert acc. induction features as [|f features IH]; intros acc.
  - cbn [foldl length]. change (inject_Z (Z.of_nat 0)) with 0%Q. lra.
  - cbn [foldl length]. rewrite Nat2Z.inj_succ, <- Z.add_1_r, inject_Z_plus.
    change (inject_Z 1) with 1%Q.
    case_match.
    + cbn zeta. rewrite preference_or_empty by done.
      specialize (IH (acc + 25 * 1)%Q).
      set (x := foldl _ _ _) in *.
      set (n := inject_Z (Z.of_nat (length features))) in *. lra.
    + specialize (IH acc).
      set (x := foldl _ _ _) in *.
      set (n := inject_Z (Z.of_nat (length features))) in *.
      assert (0 <= n)%Q
        by (unfold n; change 0%Q with (inject_Z 0); rewrite <- Zle_Qle; lia).
      lra.
Qed.

Lemma feature_score_range query l e :
  userPreferences (learningData e) = ∅ ->
  (0 <= calculateFeatureScore query l e <= 125)%Q.
Proof.
  intros He. unfold calculateFeatureScore.
  pose proof (feature_fold_range e query (listing_features l) 0 He) as H.
  cbn [listing_features length] in H.
  change (inject_Z (Z.of_nat 5)) with 5%Q in H. lra.
Qed.

Lemma contextual_score_values query l e :
  calculateContextualScore query l e = 0%Q
  \/ calculateContextualScore query l e = 50%Q.
Proof. unfold calculateContextualScore. case_match; auto. Qed.

Lemma split_from_nonempty cur in_run s : 1 <= length (split_from cur in_run s).
Proof.
  revert cur in_run. induction s as [|c s IH]; intros cur in_run; cbn; [lia|].
  repeat case_match; cbn; try apply IH. lia.
Qed.

Lemma semantic_range query text :
  (0 <= calculateSemanticSimilarity query text <= 30)%Q.
Proof.
  unfold calculateSemanticSimilarity.
  set (words := split_spaces query).
  set (matched := List.filter _ words).
  assert (Hn : 1 <= length words) by apply split_from_nonempty.
  assert (Hm : length matched <= length words).
  { unfold matched. apply filter_length_le. }
  assert (H : (0 <= inject_Z (Z.of_nat (length matched))
                    / inject_Z (Z.of_nat (length words)) <= 1)%Q).
  { assert (H1 : (0 < Z.of_nat (length words))%Z) by lia.
    assert (H2 : (0 <= Z.of_nat (length words) - Z.of_nat (length matched)
                  <= Z.of_nat (length words))%Z) by lia.
    pose proof (ratio_range _ _ H1 H2) as Hr.
    replace (Z.of_nat (length words)
             - (Z.of_nat (length words) - Z.of_nat (length matched)))%Z
      with (Z.of_nat (length matched)) in Hr by lia.
    exact Hr. }
  lra.
Qed.

Lemma popularity_range listingId e :
  (0 <= calculatePopularityScore listingId e <= 15)%Q.
Proof.
  unfold calculatePopularityScore.
  assert (H : forall log acc, (0 <= acc)%Z ->
    (0 <= foldl (fun count (interaction : UserInteraction ref) =>
             (count + if bool_decide
                          (listingId ∈ deref e (clickedListings interaction))
                      then 1 else 0)%Z) acc log)%Z).
  { induction log as [|i log IH]; intros acc Hacc; cbn; [done|].
    apply IH. case_bool_decide; lia. }
  specialize (H (successfulQueries (learningData e)) 0%Z ltac:(lia)).
  split.
  - change 0%Q with (inject_Z 0). rewrite <- Zle_Qle. lia.
  - change 15%Q with (inject_Z 15). rewrite <- Zle_Qle. lia.
Qed.

(** The ranges of the parts of a score, in any state of the engine: the
    raw size score is 0, 10, 20, 30 or 40; the contextual score is 0 or
    50; the semantic score lies between 0 and 30 (the query always
    splits into at least one word, so nothing is divided by 0); the
    popularity bonus lies between 0 and 15 and the type bonus is at most
    20. *)
Theorem term_bounds query l e :
  In (calculateAdaptiveSizeScore query (area l)) [0; 10; 20; 30; 40]%Z
  /\ (calculateContextualScore query l e = 0%Q
      \/ calculateContextualScore query l e = 50%Q)
  /\ (0 <= calculateSemanticSimilarity query (listing_text l) <= 30)%Q
  /\ (0 <= calculatePopularityScore (id l) e <= 15)%Q
  /\ (calculateTypeBonus (type l) e <= 20)%Q.
Proof.
  split; [apply size_score_values|].
  split; [apply contextual_score_values|].
  split; [apply semantic_range|].
  split; [apply popularity_range|].
  unfold calculateTypeBonus. apply Q.le_min_l.
Qed.

Lemma add_features_upper terms bounds acc :
  Forall2 (fun (t : bool * Q * string) (b : Q) =>
             (0 <= b)%Q /\ (t.1.1 = true -> (t.1.2 <= b)%Q)) terms bounds ->
  ((add_features terms acc).1 <= acc.1 + foldr Qplus 0 bounds)%Q.
Proof.
  intros H. revert acc.
  induction H as [|[[hit amount] name] b terms bounds [Hb Ht] _ IH];
    intros acc.
  - cbn. lra.
  - cbn [add_features foldl foldr]. unfold add_features in IH.
    eapply Qle_trans; [apply IH|]. unfold add_feature. cbn [fst snd] in *.
    destruct hit; cbn [fst]; [specialize (Ht eq_refl)|]; lra.
Qed.

Lemma weight_or_upper e feature fallback :
  weights_in_range e -> (fallback <= 150)%Z ->
  (weight_or e feature fallback <= 150)%Z.
Proof.
  intros He Hf. unfold weight_or.
  destruct (featureWeights (learningData e) !! utf16 feature) as [w|] eqn:Hw;
    [|done].
  case_decide; [done|]. apply He in Hw. cbn in Hw. lia.
Qed.

Lemma scaled_le (s smax d bound : Q) (w : Z) :
  (0 <= s <= smax)%Q -> (0 < w <= 150)%Z -> (0 < d)%Q ->
  (smax * 150 <= bound * d)%Q ->
  (s * inject_Z w / d <= bound)%Q.
Proof.
  intros Hs Hw Hd Hb. apply Qle_shift_div_r; [done|].
  eapply Qle_trans; [|exact Hb].
  apply Qmult_le_compat_nonneg; [done|]. split.
  - change 0%Q with (inject_Z 0). rewrite <- Zle_Qle. lia.
  - change 150%Q with (inject_Z 150). rewrite <- Zle_Qle. lia.
Qed.

Lemma score_terms_upper query l e kw :
  weights_in_range e -> userPreferences (learningData e) = ∅ ->
  Forall2 (fun (t : bool * Q * string) (b : Q) =>
             (0 <= b)%Q /\ (t.1.1 = true -> (t.1.2 <= b)%Q))
          (score_terms query l e kw) [150; 150; 200; 200; 750; 50; 30]%Q.
Proof.
  intros He Hp. unfold score_terms. cbn zeta.
  assert (Hw : forall feature fallback,
    (0 < fallback <= 150)%Z ->
    (0 < weight_or e feature fallback <= 150)%Z).
  { intros feature fallback [H0 H1]. split.
    - by apply weight_or_positive.
    - by apply weight_or_upper. }
  assert (Hsize : (0 <= inject_Z (calculateAdaptiveSizeScore query (area l))
                   <= 40)%Q).
  { pose proof (size_score_values query (area l)) as Hs.
    cbn [In] in Hs.
    change 0%Q with (inject_Z 0). change 40%Q with (inject_Z 40).
    rewrite <- !Zle_Qle. lia. }
  assert (H30 : (0 < 30)%Q) by reflexivity.
  assert (H25 : (0 < 25)%Q) by reflexivity.
  assert (Hb200 : (40 * 150 <= 200 * 30)%Q) by discriminate.
  assert (Hb750 : (125 * 150 <= 750 * 25)%Q) by discriminate.
  constructor.
  { split; [discriminate|]. intros _. cbn [fst snd].
    change 150%Q with (inject_Z 150). rewrite <- Zle_Qle. apply Hw. lia. }
  constructor.
  { split; [discriminate|]. intros _. cbn [fst snd].
    change 150%Q with (inject_Z 150). rewrite <- Zle_Qle. apply Hw. lia. }
  constructor.
  { split; [discriminate|]. intros _. cbn [fst snd].
    apply (scaled_le _ 40); [exact Hsize|apply Hw; lia|exact H30|exact Hb200]. }
  constructor.
  { split; [discriminate|]. intros _. cbn [fst snd].
    apply (scaled_le _ 40);
      [by apply price_score_range|apply Hw; lia|exact H30|exact Hb200]. }
  constructor.
  { split; [discriminate|]. intros _. cbn [fst snd].
    apply (scaled_le _ 125);
      [by apply feature_score_range|apply Hw; lia|exact H25|exact Hb750]. }
  constructor.
  { split; [discriminate|]. intros _. cbn [fst snd].
    destruct (contextual_score_values query l e) as [-> | ->]; discriminate. }
  constructor.
  { split; [discriminate|]. intros _. cbn [fst snd]. apply semantic_range. }
  constructor.
Qed.

(** In every state reached from the default one the relevance score of a
    listing lies between 0 and 1530, and its final score exceeds the
    relevance score by the popularity bonus alone, which is at most 15
    (the type bonus is 0 there). *)
Theorem score_bounded session ops query l :
  let e := run ops (initial session) in
  (0 <= relevance e query l <= 1530)%Q
  /\ (relevance e query l <= final_score e query l
      <= relevance e query l + 15)%Q.
Proof.
  intros e.
  assert (He : weights_in_range e)
    by apply weights_in_range_run, weights_in_range_initial.
  assert (Hp : userPreferences (learningData e) = ∅)
    by (unfold e; by rewrite run_userPreferences).
  split.
  - unfold relevance.
    destruct (calculateAdaptiveScore query l e) as [[s m]|] eqn:Hs;
      [|split; by vm_compute].
    cbn [fst]. split; [by apply (calculateAdaptiveScore_sign _ _ _ _ _ He Hs)|].
    rewrite calculateAdaptiveScore_terms in Hs.
    destruct (getLearnedTypeKeywords (type l) e) as [kw|]; [|done].
    cbn [result_bind] in Hs.
    pose proof (add_features_upper _ _ (0%Q, [])
                  (score_terms_upper query l e kw He Hp)) as Hu.
    assert (Hfst : (add_features (score_terms query l e kw) (0%Q, [])).1 = s)
      by exact (f_equal (fun r : result (Q * list (list N)) =>
                           match r with
                           | Ok x => x.1
                           | TypeError => 0%Q
                           end) Hs).
    rewrite Hfst in Hu. cbn [fst foldr] in Hu. lra.
  - unfold final_score.
    assert (Ht : (calculateTypeBonus (type l) e == 0)%Q).
    { unfold calculateTypeBonus. rewrite preference_or_empty by done.
      reflexivity. }
    pose proof (popularity_range (id l) e). lra.
Qed.

(** ** Saving and loading *)

(** [new Map(entries)] on entries with distinct keys. *)
Lemma Map_of_entries_lookup {V} (l : list (list N * V)) (m0 : gmap (list N) V) k :
  NoDup (map fst l) ->
  foldl (fun m kv => <[kv.1 := kv.2]> m) m0 l !! k =
  match (list_to_map l : gmap (list N) V) !! k with
  | Some v => Some v
  | None => m0 !! k
  end.
Proof.
  revert m0. induction l as [|[k0 v0] l IH]; intros m0 Hnd; cbn.
  - by rewrite lookup_empty.
  - inversion Hnd as [|? ? Hk0 Hnd']; subst. rewrite IH by done.
    rewrite !lookup_insert. case_decide as Hk.
    + subst. rewrite (not_elem_of_list_to_map_1 l k); [done|].
      intros Hin. apply Hk0. by apply list_elem_of_In.
    + done.
Qed.

(** [new Map(Array.from(m.entries()))] is [m]. *)
Lemma Map_of_entries_to_list {V} (m : gmap (list N) V) :
  Map_of_entries (map_to_list m) = m.
Proof.
  apply map_eq. intros k. unfold Map_of_entries.
  rewrite Map_of_entries_lookup.
  - rewrite list_to_map_to_list, lookup_empty. by destruct (m !! k).
  - exact (NoDup_fst_map_to_list m).
Qed.

(** Parsing the saved log allocates one array for each interaction, in
    order. *)
Lemma load_interactions_fold
    (saved : list (UserInteraction (list (list N))))
    (log0 : list (UserInteraction ref)) (store0 : list (list (list N))) :
  foldl (fun acc i =>
           (acc.1 ++ [with_clicked i (length acc.2)],
            acc.2 ++ [clickedListings i]))
        (log0, store0) saved
  = (log0 ++ imap (fun k i => with_clicked i (length store0 + k)) saved,
     store0 ++ map clickedListings saved).
Proof.
  revert log0 store0. induction saved as [|i saved IH]; intros log0 store0.
  - cbn. by rewrite !app_nil_r.
  - cbn [foldl fst snd]. rewrite IH. cbn [imap map].
    rewrite <- !app_assoc. cbn. rewrite Nat.add_0_r. do 3 f_equal.
    apply imap_ext. intros k x _. cbn. rewrite length_app. cbn.
    f_equal. lia.
Qed.

(** Parsing the saved mappings allocates one array for each key and
    leaves the arrays already allocated in place. *)
Lemma load_mappings_fold (saved : list (list N * list (list N))) :
  NoDup (map fst saved) ->
  forall (m0 : gmap (list N) ref) (store0 : list (list (list N))),
  let loaded :=
    foldl (fun acc kv =>
             (<[kv.1 := length acc.2]> acc.1, acc.2 ++ [kv.2]))
          (m0, store0) saved in
  (forall q v, (q, v) ∈ saved ->
     exists r, loaded.1 !! q = Some r /\ loaded.2 !! r = Some v)
  /\ (forall q, q ∉ map fst saved -> loaded.1 !! q = m0 !! q)
  /\ store0 `prefix_of` loaded.2.
Proof.
  induction saved as [|[k v] saved IH]; intros Hnd m0 store0; cbn zeta.
  - cbn. split; [by intros ? ? ?%elem_of_nil|]. split; [done|]. done.
  - inversion Hnd as [|? ? Hk Hnd']; subst.
    cbn [foldl fst snd].
    destruct (IH Hnd' (<[k:=length store0]> m0) (store0 ++ [v]))
      as (Hin & Hout & Hpre).
    cbn zeta in *. split; [|split].
    + intros q v' [[= <- <-]|Hq]%elem_of_cons.
      * exists (length store0). split.
        -- rewrite Hout by exact Hk. apply lookup_insert_eq.
        -- eapply prefix_lookup_Some; [|exact Hpre].
           by rewrite lookup_app_r, Nat.sub_diag by lia.
      * by apply Hin.
    + intros q Hq. cbn [map fst] in Hq. apply not_elem_of_cons in Hq as [Hne Hq].
      rewrite Hout by exact Hq. by apply lookup_insert_ne.
    + etransitivity; [|exact Hpre]. by apply prefix_app_r.
Qed.

(** X15.  Reloading what was saved: an engine constructed while
    localStorage holds what [saveLearningData] wrote for the engine [e]
    has the feature weights, query patterns and user preferences of [e],
    the same clicked listings for every query, the last 1000 interactions
    of the log of [e] with their clicked listings, an empty current query
    and its own session id. *)
Theorem reload_round_trip session e :
  let e' := new_engine session (Some (toSave e)) in
  featureWeights (learningData e') = featureWeights (learningData e)
  /\ queryPatterns (learningData e') = queryPatterns (learningData e)
  /\ userPreferences (learningData e') = userPreferences (learningData e)
  /\ (forall query, clicked_after e' query = clicked_after e query)
  /\ logged e' = slice_last 1000 (logged e)
  /\ length (successfulQueries (learningData e')) <= 1000
  /\ currentQuery e' = []
  /\ currentSessionId e' = session.
Proof.
  cbn zeta. unfold new_engine, loadLearningData, load_interactions.
  rewrite load_interactions_fold. cbn [app length Nat.add].
  set (sl := saved_successfulQueries (toSave e)).
  set (sc := saved_contextualMappings (toSave e)).
  assert (Hnd : NoDup (map fst sc)).
  { unfold sc, toSave. cbn [saved_contextualMappings].
    rewrite map_map. cbn [fst].
    exact (NoDup_fst_map_to_list (contextualMappings (learningData e))). }
  pose proof (load_mappings_fold sc Hnd ∅ (map clickedListings sl)) as Hload.
  cbn zeta in Hload. fold (load_mappings sc (map clickedListings sl)) in Hload.
  destruct (load_mappings sc (map clickedListings sl)) as [m st].
  cbn [fst snd] in Hload. destruct Hload as (Hin & Hout & Hpre).
  cbn [learningData featureWeights queryPatterns userPreferences
       successfulQueries currentQuery currentSessionId].
  assert (Hsl : sl = slice_last 1000 (logged e)).
  { unfold sl, toSave, logged, slice_last. cbn [saved_successfulQueries].
    rewrite length_map. apply (fmap_drop _ _ _). }
  split; [apply Map_of_entries_to_list|].
  split; [apply Map_of_entries_to_list|].
  split; [apply Map_of_entries_to_list|].
  split; [|split; [|split]].
  - intros query. unfold clicked_after, deref.
    cbn [learningData contextualMappings arrays].
    destruct (contextualMappings (learningData e) !! query) as [r|] eqn:Hr.
    + destruct (Hin query (default [] (arrays e !! r))) as (r' & Hm & Hst).
      { unfold sc, toSave. cbn [saved_contextualMappings].
        apply list_elem_of_fmap. exists (query, r). split; [done|].
        by apply elem_of_map_to_list. }
      by rewrite Hm, Hst.
    + rewrite Hout, lookup_empty; [done|].
      unfold sc, toSave. cbn [saved_contextualMappings].
      rewrite map_map. cbn [fst]. intros Hq.
      apply list_elem_of_fmap in Hq as [[q r] [-> Hq]].
      apply elem_of_map_to_list in Hq. cbn in Hr. congruence.
  - rewrite <- Hsl. unfold logged.
    cbn [learningData successfulQueries]. unfold deref. cbn [arrays].
    apply list_eq. intros k.
    rewrite list_lookup_fmap, list_lookup_imap.
    destruct (sl !! k) as [i|] eqn:Hk; cbn; [|done]. f_equal.
    assert (Hst : st !! k = Some (clickedListings i)).
    { eapply prefix_lookup_Some; [|exact Hpre].
      by rewrite list_lookup_fmap, Hk. }
    etransitivity; [|apply (with_clicked_back i k)].
    apply (f_equal (with_clicked (with_clicked i k))).
    exact (f_equal (default []) Hst).
  - rewrite length_imap, Hsl. unfold slice_last.
    rewrite length_drop. lia.
  - done.
Qed.
